(** * update-types: TypeScript declarations generated from a PostgreSQL catalog

    A shallow embedding of [api/scripts/update-types.ts].  JavaScript strings
    are modelled by [string], read as the UTF-8 bytes of the text: every
    literal the script compares against is ASCII, so searching, suffix tests
    and character replacement act on bytes exactly as they act on UTF-16 code
    units.  The [lines] array that both loops push to is threaded explicitly,
    array look-behind and look-ahead are [nth_error] lookups, and the promise
    chain at the bottom of the script is a small trace-producing monad. *)

From Stdlib Require Import List String Ascii Bool Arith NArith Lia.
From Stdlib Require Import Sorting.Sorted Classes.RelationClasses.
Import ListNotations.
Open Scope string_scope.

Set Implicit Arguments.

(** ** Strings *)

Module Str.

(** The newline and the double quote, the two characters of the templates
    that a string literal cannot hold directly. *)
Definition nl : string := String (ascii_of_nat 10) EmptyString.
Definition dq : string := String (ascii_of_nat 34) EmptyString.

(** [String.prototype.endsWith]. *)
Definition endsWith (word suffix : string) : bool :=
  Nat.leb (String.length suffix) (String.length word) &&
  String.eqb (substring (String.length word - String.length suffix)
                        (String.length suffix) word) suffix.

(** [String.prototype.startsWith]. *)
Definition startsWith (word pre : string) : bool := prefix pre word.

(** [word.substring(0, n)]. *)
Definition take (n : nat) (word : string) : string := substring 0 n word.

(** [word.substring(n)]. *)
Fixpoint drop (n : nat) (word : string) : string :=
  match n, word with
  | 0, _ => word
  | S _, EmptyString => EmptyString
  | S m, String _ rest => drop m rest
  end.

(** A global, single-character [replace]: every character is mapped on
    its own. *)
Fixpoint mapChars (f : ascii -> ascii) (s : string) : string :=
  match s with
  | EmptyString => EmptyString
  | String c rest => String (f c) (mapChars f rest)
  end.

(** [Array.prototype.join]. *)
Definition join (sep : string) (parts : list string) : string :=
  String.concat sep parts.

(** [Array.prototype.includes] on an array of strings. *)
Definition includes (xs : list string) (x : string) : bool :=
  existsb (String.eqb x) xs.

End Str.

(** ** NameTransformer *)

(** [singular], lines 14-22: the first matching suffix decides. *)
Definition singular (word : string) : string :=
  if Str.endsWith word "ies" then
    Str.take (String.length word - 3) word ++ "y"
  else if Str.endsWith word "es" then
    Str.take (String.length word - 2) word ++ "y"
  else if Str.endsWith word "s" then
    Str.take (String.length word - 1) word
  else word.

(** Modelled from the spec: [camelCase] and [upperFirst] are imported from
    the lodash package, whose code is not among the sources.  The spec gives
    their composition as [toIdentifier]: split the word on separators,
    uppercase the first letter of each segment, concatenate.  A separator is
    taken to be an ASCII character that is neither a letter nor a digit. *)
Module Lodash.

Definition between (lo hi : nat) (c : ascii) : bool :=
  Nat.leb lo (nat_of_ascii c) && Nat.leb (nat_of_ascii c) hi.

Definition isLower : ascii -> bool := between 97 122.
Definition isUpper : ascii -> bool := between 65 90.
Definition isDigit : ascii -> bool := between 48 57.

Definition isSeparator (c : ascii) : bool :=
  Nat.ltb (nat_of_ascii c) 128 && negb (isLower c || isUpper c || isDigit c).

Definition toUpper (c : ascii) : ascii :=
  if isLower c then ascii_of_nat (nat_of_ascii c - 32) else c.

Definition consSegment (run : string) (segs : list string) : list string :=
  match run with
  | EmptyString => segs
  | _ => run :: segs
  end.

(** The run of word characters that [s] opens with, and the segments that
    follow its first separator. *)
Fixpoint split (s : string) : string * list string :=
  match s with
  | EmptyString => (EmptyString, [])
  | String c rest =>
      let (run, segs) := split rest in
      if isSeparator c then (EmptyString, consSegment run segs)
      else (String c run, segs)
  end.

Definition words (s : string) : list string :=
  let (run, segs) := split s in consSegment run segs.

Definition upperFirst (s : string) : string :=
  match s with
  | EmptyString => EmptyString
  | String c rest => String (toUpper c) rest
  end.

Definition camelCase (s : string) : string :=
  match words s with
  | [] => EmptyString
  | w :: ws => w ++ String.concat EmptyString (map upperFirst ws)
  end.

End Lodash.

Import Lodash.

(** The spec's name for the composition the script applies to keys and
    tables. *)
Definition toIdentifier (word : string) : string := upperFirst (camelCase word).

(** ** Catalog rows *)

(** A row of the [pg_type]/[pg_enum] join as selected on line 33. *)
Record EnumRow : Type := { typeKey : string; rawValue : string }.

(** An element of [enums] after the [then] of lines 34-36. *)
Record Enum : Type := { key : string; value : string; name : string }.

(** A row of [information_schema.columns].  The query orders by
    [ordinal_position] and does not select it. *)
Record CatalogColumn : Type := {
  table_name : string;
  column_name : string;
  ordinal_position : nat;
  is_nullable : string;
  data_type : string;
  udt_name : string
}.

(** An element of [columns], with the aliases of lines 58-64. *)
Record Column : Type := {
  table : string;
  col : string;
  null : string;
  type : string;
  udt : string
}.

Definition selectColumn (r : CatalogColumn) : Column :=
  {| table := table_name r;
     col := column_name r;
     null := is_nullable r;
     type := data_type r;
     udt := udt_name r |}.

(** Lines 34-36: [rows.map((x) => ({ ...x, name: upperFirst(camelCase(x.key)) }))]. *)
Definition withName (x : EnumRow) : Enum :=
  {| key := typeKey x;
     value := rawValue x;
     name := upperFirst (camelCase (typeKey x)) |}.

(** ** Arrays *)

(** [xs[i - 1]]: index [-1] is not an element. *)
Definition before {A : Type} (xs : list A) (i : nat) : option A :=
  match i with
  | 0 => None
  | S j => nth_error xs j
  end.

(** [xs[i + 1]]. *)
Definition after {A : Type} (xs : list A) (i : nat) : option A :=
  nth_error xs (i + 1).

(** [o?.k !== k'] for a string [k']: an absent neighbour always differs. *)
Definition differs (o : option string) (k' : string) : bool :=
  match o with
  | None => true
  | Some k => negb (String.eqb k k')
  end.

(** [lines.push(l)]. *)
Definition push (lines : list string) (l : string) : list string :=
  (lines ++ [l])%list.

(** [xs.forEach((x, i) => ...)] with the state the callback mutates passed
    along; [i] is the index of the head of [xs]. *)
Fixpoint forEachFrom {A St : Type} (f : St -> A -> nat -> St)
         (xs : list A) (i : nat) (st : St) : St :=
  match xs with
  | [] => st
  | x :: rest => forEachFrom f rest (S i) (f st x i)
  end.

Definition forEach {A St : Type} (f : St -> A -> nat -> St)
           (xs : list A) (st : St) : St :=
  forEachFrom f xs 0 st.

(** ** EnumEmitter, lines 39-48 *)

Definition isDotOrDash (c : ascii) : bool :=
  Ascii.eqb c "."%char || Ascii.eqb c "-"%char.

(** [value.replace(/[.-]/g, "_")]. *)
Definition sanitize (v : string) : string :=
  Str.mapChars (fun c => if isDotOrDash c then "_"%char else c) v.

Definition enumOpen (x : Enum) : string := "export enum " ++ name x ++ " {".

Definition enumMember (x : Enum) : string :=
  "  " ++ sanitize (value x) ++ " = " ++ Str.dq ++ value x ++ Str.dq ++ ",".

Definition enumClose : string := "}" ++ Str.nl.

Definition enumCallback (enums : list Enum)
           (lines : list string) (x : Enum) (i : nat) : list string :=
  let lines :=
    if differs (option_map key (before enums i)) (key x)
    then push lines (enumOpen x) else lines in
  let lines := push lines (enumMember x) in
  if differs (option_map key (after enums i)) (key x)
  then push lines enumClose else lines.

(** ** TypeMapper, lines 72-85 *)

Definition nullable (x : Column) : string :=
  if String.eqb (null x) "YES" then " | null" else EmptyString.

(** The conditional chain of lines 73-85.  [find(...)?.name] is [undefined]
    when nothing is found, which is [None] here. *)
Definition columnType (enums : list Enum) (x : Column) : option string :=
  if Str.includes ["integer"; "numeric"; "decimal"] (type x) then Some "number"
  else if String.eqb (type x) "boolean" then Some "boolean"
  else if String.eqb (type x) "jsonb" then Some "any"
  else if String.eqb (type x) "ARRAY" && String.eqb (udt x) "_text"
       then Some "string[]"
  else if Str.startsWith (type x) "timestamp" || String.eqb (type x) "date"
       then Some "Date"
  else if String.eqb (type x) "USER-DEFINED" &&
          existsb (fun e => String.eqb (key e) (udt x)) enums
       then option_map name (find (fun e => String.eqb (key e) (udt x)) enums)
  else Some "string".

(** What a template literal prints for a value that may be [undefined]. *)
Definition interpolate (o : option string) : string :=
  match o with
  | Some s => s
  | None => "undefined"
  end.

(** ** RecordEmitter, lines 67-92 *)

Definition recordOpen (x : Column) : string :=
  "export type " ++ singular (upperFirst (camelCase (table x))) ++ " = {".

Definition recordField (enums : list Enum) (x : Column) : string :=
  "  " ++ col x ++ ": " ++ interpolate (columnType enums x) ++ nullable x ++ ";".

Definition recordClose : string := "};" ++ Str.nl.

Definition columnCallback (enums : list Enum) (columns : list Column)
           (lines : list string) (x : Column) (i : nat) : list string :=
  let lines :=
    if differs (option_map table (before columns i)) (table x)
    then push lines (recordOpen x) else lines in
  let lines := push lines (recordField enums x) in
  if differs (option_map table (after columns i)) (table x)
  then push lines recordClose else lines.

(** ** The generated document *)

(** The contents of [lines] when line 94 is reached: the enum loop runs on
    the fresh array, the column loop on what the enum loop left. *)
Definition generateLines (rows : list EnumRow) (columns : list Column)
  : list string :=
  let enums := map withName rows in
  let lines := forEach (enumCallback enums) enums [] in
  forEach (columnCallback enums columns) columns lines.

(** [lines.join("\n")], line 103. *)
Definition generatedText (rows : list EnumRow) (columns : list Column)
  : string :=
  Str.join Str.nl (generateLines rows columns).

(** ** FileMerger, lines 96-104 *)

Definition anchor : string := "export default db;".

(** The replacement string of lines 100-103. *)
Definition replacement (lines : list string) : string :=
  "export default db;" ++ Str.nl ++ Str.nl ++
  "// The TypeScript definitions below are automatically generated." ++ Str.nl ++
  "// Do not touch them, or risk, your modifications being lost." ++ Str.nl ++
  Str.nl ++
  Str.join Str.nl lines.

Module RegExp.

(** Where [^] matches under the [m] flag: at the start of the text and
    after a line terminator.  [seen] holds the bytes already passed, the
    last one first; U+2028 and U+2029 appear as their three UTF-8 bytes. *)
Definition atLineStart (seen : list ascii) : bool :=
  match seen with
  | [] => true
  | c :: more =>
      Nat.eqb (nat_of_ascii c) 10 || Nat.eqb (nat_of_ascii c) 13 ||
      match more with
      | c2 :: c3 :: _ =>
          (Nat.eqb (nat_of_ascii c) 168 || Nat.eqb (nat_of_ascii c) 169) &&
          Nat.eqb (nat_of_ascii c2) 128 && Nat.eqb (nat_of_ascii c3) 226
      | _ => false
      end
  end.

(** [/^export default db;([\s\S]+)/m] tried at the current position: the
    anchor opens a line and at least one character follows it.  The group
    is greedy and takes everything up to the end of the text. *)
Definition matchesHere (seen : list ascii) (s : string) : bool :=
  atLineStart seen && prefix anchor s &&
  Nat.ltb (String.length anchor) (String.length s).

(** The leftmost match: the text before it and the first group. *)
Fixpoint exec (seen : list ascii) (s : string) : option (string * string) :=
  if matchesHere seen s
  then Some (string_of_list_ascii (rev seen),
             Str.drop (String.length anchor) s)
  else match s with
       | EmptyString => None
       | String c rest => exec (c :: seen) rest
       end.

(** The substitution patterns of a replacement string, for a pattern with
    one group and no named groups: [pre] is the text before the match,
    [matched] the match, [group] the group and [post] the text after the
    match. *)
Fixpoint substitute (pre matched group post template : string) : string :=
  match template with
  | EmptyString => EmptyString
  | String c r =>
      if negb (Ascii.eqb c "$"%char) then
        String c (substitute pre matched group post r)
      else
        match r with
        | EmptyString => "$"
        | String d r' =>
            if Ascii.eqb d "$"%char then
              "$" ++ substitute pre matched group post r'
            else if Ascii.eqb d "`"%char then
              pre ++ substitute pre matched group post r'
            else if Ascii.eqb d "&"%char then
              matched ++ substitute pre matched group post r'
            else if Ascii.eqb d "'"%char then
              post ++ substitute pre matched group post r'
            else if isDigit d then
              match r' with
              | String d2 r'' =>
                  if Ascii.eqb d "0"%char && Ascii.eqb d2 "1"%char then
                    group ++ substitute pre matched group post r''
                  else if Ascii.eqb d "0"%char && Ascii.eqb d2 "0"%char then
                    "$00" ++ substitute pre matched group post r''
                  else if Ascii.eqb d "1"%char then
                    group ++ substitute pre matched group post r'
                  else
                    String c (String d (substitute pre matched group post r'))
              | EmptyString =>
                  if Ascii.eqb d "1"%char then group
                  else String c (String d EmptyString)
              end
            else
              String c (String d (substitute pre matched group post r'))
        end
  end.

(** [source.replace(/^export default db;([\s\S]+)/m, template)]: without a
    match the text comes back as it is. *)
Definition replace (source template : string) : string :=
  match exec [] source with
  | None => source
  | Some (pre, group) =>
      pre ++ substitute pre (anchor ++ group) group EmptyString template
  end.

End RegExp.

(** ** The run, lines 24-114 *)

Definition Error : Type := string.

Inductive Event : Type :=
| DbQuery (tableName : string)
| FsRead
| FsWrite (content : string)
| ConsoleError (err : Error)
| ProcessExit (code : nat)
| DbDestroy.

(** How a promise chain stands: settled either way, or cut short because
    the process has exited. *)
Inductive Completion (A : Type) : Type :=
| Fulfilled (a : A)
| Rejected (err : Error)
| Exited (code : nat).

Arguments Fulfilled {A} a.
Arguments Rejected {A} err.
Arguments Exited {A} code.

(** A computation: the events it causes, in order, and how it completes. *)
Definition Proc (A : Type) : Type := list Event * Completion A.

Definition ret {A : Type} (a : A) : Proc A := ([], Fulfilled a).

Definition bind {A B : Type} (m : Proc A) (k : A -> Proc B) : Proc B :=
  match m with
  | (tr, Fulfilled a) => let (tr', c) := k a in ((tr ++ tr')%list, c)
  | (tr, Rejected err) => (tr, Rejected err)
  | (tr, Exited code) => (tr, Exited code)
  end.

Notation "x <- m ;; k" := (bind m (fun x => k))
  (at level 61, m at next level, right associativity).

(** What an external collaborator answers. *)
Inductive Reply (A : Type) : Type :=
| Answer (a : A)
| Failure (err : Error).

Arguments Answer {A} a.
Arguments Failure {A} err.

Definition await {A : Type} (ev : Event) (r : Reply A) : Proc A :=
  ([ev], match r with
         | Answer a => Fulfilled a
         | Failure err => Rejected err
         end).

Definition emit (ev : Event) : Proc unit := ([ev], Fulfilled tt).

(** [process.exit(code)] ends the process where it is called. *)
Definition processExit {A : Type} (code : nat) : Proc A :=
  ([ProcessExit code], Exited code).

(** [promise.catch(handler)]. *)
Definition catch {A : Type} (m : Proc A) (handler : Error -> Proc A) : Proc A :=
  match m with
  | (tr, Rejected err) => let (tr', c) := handler err in ((tr ++ tr')%list, c)
  | _ => m
  end.

(** [promise.finally(callback)]: the callback runs when the promise
    settles, and the promise keeps its outcome unless the callback fails. *)
Definition finally {A : Type} (m : Proc A) (callback : Proc unit) : Proc A :=
  match m with
  | (tr, Exited code) => (tr, Exited code)
  | (tr, c) =>
      match callback with
      | (tr', Fulfilled _) => ((tr ++ tr')%list, c)
      | (tr', Rejected err) => ((tr ++ tr')%list, Rejected err)
      | (tr', Exited code) => ((tr ++ tr')%list, Exited code)
      end
  end.

(** The collaborators of one run: the answers of the two catalog queries,
    of reading the target file, and of writing it. *)
Record World : Type := {
  enumRows : Reply (list EnumRow);
  columnRows : Reply (list CatalogColumn);
  fileText : Reply string;
  writeFile : string -> Reply unit
}.

(** [fs.writeFileSync(file, source)]: the write is an event when it takes
    place. *)
Definition writeFileSync (w : World) (source : string) : Proc unit :=
  match writeFile w source with
  | Answer _ => emit (FsWrite source)
  | Failure err => ([], Rejected err)
  end.

(** Lines 25-92: both queries and both loops, up to the finished [lines]. *)
Definition generate (w : World) : Proc (list string) :=
  rows <- await (DbQuery "pg_type") (enumRows w) ;;
  let enums := map withName rows in
  let lines := forEach (enumCallback enums) enums [] in
  catalog <- await (DbQuery "columns") (columnRows w) ;;
  let columns := map selectColumn catalog in
  ret (forEach (columnCallback enums columns) columns lines).

Definition updateTypes (w : World) : Proc unit :=
  lines <- generate w ;;
  text <- await FsRead (fileText w) ;;
  let source := RegExp.replace text (replacement lines) in
  writeFileSync w source.

(** Lines 109-114. *)
Definition main (w : World) : Proc unit :=
  finally
    (catch (updateTypes w)
           (fun err => _ <- emit (ConsoleError err) ;; processExit 1))
    (emit DbDestroy).

(** The text of the target file once the events of [tr] have happened. *)
Definition fileAfter (text : string) (tr : list Event) : string :=
  fold_left (fun cur ev => match ev with FsWrite content => content | _ => cur end)
            tr text.

Definition isWrite (ev : Event) : bool :=
  match ev with
  | FsWrite _ => true
  | _ => false
  end.

(** The document a run generates: the text joined on line 103, when the
    run gets that far. *)
Definition generatedBy (w : World) : option string :=
  match generate w with
  | (_, Fulfilled lines) => Some (Str.join Str.nl lines)
  | _ => None
  end.

(** ** Grouping, as the spec words it

    The spec describes both emitters as a grouping transform: the rows are
    partitioned into maximal runs sharing a key, one block per run, and for
    sorted rows one block per distinct key with the rows of that key. *)

Section GroupingModel.

Variable A : Type.
Variable keyOf : A -> string.
Variables (opener member : A -> string) (closer : string).

(** The shape both callbacks share. *)
Definition blockCallback (xs : list A)
           (lines : list string) (x : A) (i : nat) : list string :=
  let lines :=
    if differs (option_map keyOf (before xs i)) (keyOf x)
    then push lines (opener x) else lines in
  let lines := push lines (member x) in
  if differs (option_map keyOf (after xs i)) (keyOf x)
  then push lines closer else lines.

(** The maximal runs of neighbours with the same key. *)
Fixpoint runs (xs : list A) : list (list A) :=
  match xs with
  | [] => []
  | x :: rest =>
      let later := runs rest in
      match rest, later with
      | y :: _, g :: gs =>
          if String.eqb (keyOf y) (keyOf x) then (x :: g) :: gs
          else [x] :: g :: gs
      | _, _ => [[x]]
      end
  end.

(** The rows with key [k], in their order. *)
Definition withKey (k : string) (xs : list A) : list A :=
  filter (fun x => String.eqb (keyOf x) k) xs.

(** The block of one run: the opening line of its first row, a line per
    row, the closing line. *)
Definition blockOf (g : list A) : list string :=
  match g with
  | [] => []
  | x :: _ => opener x :: (map member g ++ [closer])%list
  end.

(** What the loop has left to push when it stands before [xs] and the row
    just handled is [prev]. *)
Definition continuation (prev : option A) (xs : list A) : list string :=
  match xs, runs xs with
  | x :: _, g :: gs =>
      ((if differs (option_map keyOf prev) (keyOf x) then [opener x] else []) ++
       map member g ++ [closer] ++ flat_map blockOf gs)%list
  | _, _ => []
  end.

End GroupingModel.

(** The distinct keys, each at its first appearance. *)
Fixpoint distinct (ks : list string) : list string :=
  match ks with
  | [] => []
  | k :: rest => k :: remove string_dec k (distinct rest)
  end.

(** The enum block of key [k]: the declaration named after the key, the
    members of the rows with that key, the closing line. *)
Definition enumHeader (k : string) : string :=
  "export enum " ++ toIdentifier k ++ " {".

Definition enumBlock (enums : list Enum) (k : string) : list string :=
  enumHeader k :: (map enumMember (withKey key k enums) ++ [enumClose])%list.

(** The record block of table [t], named as line 69 names it. *)
Definition recordHeader (t : string) : string :=
  "export type " ++ singular (toIdentifier t) ++ " = {".

Definition recordBlock (enums : list Enum) (columns : list Column) (t : string)
  : list string :=
  recordHeader t ::
  (map (recordField enums) (withKey table t columns) ++ [recordClose])%list.

(** The record name as the spec gives it: singular first, casing second. *)
Definition specRecordName (t : string) : string := toIdentifier (singular t).

(** The lines the enum loop pushes. *)
Definition enumLines (rows : list EnumRow) : list string :=
  let enums := map withName rows in
  forEach (enumCallback enums) enums [].

(** The rule sets of the type table. *)
Definition isNumeric (t : string) : Prop :=
  t = "integer" \/ t = "numeric" \/ t = "decimal".

Definition isTextArray (x : Column) : Prop :=
  type x = "ARRAY" /\ udt x = "_text".

Definition isDate (t : string) : Prop :=
  Str.startsWith t "timestamp" = true \/ t = "date".

Definition isKnownEnum (enums : list Enum) (x : Column) : Prop :=
  type x = "USER-DEFINED" /\ exists e, In e enums /\ key e = udt x.

(** ** Orders *)

(** Byte-wise lexicographic order, one order a catalog may sort by. *)
Definition lexLt (a b : string) : Prop := String.compare a b = Lt.

Section Orders.

Variable lt : string -> string -> Prop.

Definition le (a b : string) : Prop := lt a b \/ a = b.

(** Rows in the order of their keys. *)
Definition sortedBy {A : Type} (keyOf : A -> string) (xs : list A) : Prop :=
  Sorted (fun a b => le (keyOf a) (keyOf b)) xs.

(** Table first, ordinal position second. *)
Definition columnLe (a b : CatalogColumn) : Prop :=
  lt (table_name a) (table_name b) \/
  (table_name a = table_name b /\ ordinal_position a <= ordinal_position b).

End Orders.

(** ** The document as text *)

(** The lines of a text: its pieces between newlines, as
    [text.split("\n")] gives them. *)
Fixpoint splitLines (text : string) : list string :=
  match text with
  | EmptyString => [EmptyString]
  | String c rest =>
      if Ascii.eqb c (ascii_of_nat 10) then EmptyString :: splitLines rest
      else match splitLines rest with
           | l :: ls => String c l :: ls
           | [] => [String c EmptyString]
           end
  end.

(** The text of a block up to its closing brace. *)
Definition enumBody (enums : list Enum) (k : string) : string :=
  Str.join Str.nl
    (enumHeader k :: (map enumMember (withKey key k enums) ++ ["}"])%list).

Definition recordBody (enums : list Enum) (columns : list Column) (t : string)
  : string :=
  Str.join Str.nl
    (recordHeader t ::
     (map (recordField enums) (withKey table t columns) ++ ["};"])%list).

(** ** Sample catalogs *)

Definition sampleEnumRows : list EnumRow :=
  [ {| typeKey := "mood"; rawValue := "so-so" |};
    {| typeKey := "mood"; rawValue := "so.so" |};
    {| typeKey := "status_type"; rawValue := "active" |} ].

Definition sampleCatalog : list CatalogColumn :=
  [ {| table_name := "invoices"; column_name := "id"; ordinal_position := 1;
       is_nullable := "NO"; data_type := "integer"; udt_name := "int4" |};
    {| table_name := "invoices"; column_name := "status"; ordinal_position := 2;
       is_nullable := "YES"; data_type := "USER-DEFINED";
       udt_name := "status_type" |};
    {| table_name := "s"; column_name := "at"; ordinal_position := 1;
       is_nullable := "NO"; data_type := "timestamp with time zone";
       udt_name := "timestamptz" |} ].

(** A table whose name is the single letter s, with one column. *)
Definition tableS : list Column :=
  [ {| table := "s"; col := "id"; null := "NO"; type := "integer";
       udt := "int4" |} ].

(** A world that answers the queries with the sample catalog, holds [text]
    in the target file and accepts the write. *)
Definition sampleWorld (text : string) : World :=
  {| enumRows := Answer sampleEnumRows;
     columnRows := Answer sampleCatalog;
     fileText := Answer text;
     writeFile := fun _ => Answer tt |}.

(** A target file from which the export statement is gone. *)
Definition textWithoutAnchor : string := "const db = knex(config);".

(** A world whose first catalog query fails. *)
Definition catalogDown : World :=
  {| enumRows := Failure "connection refused";
     columnRows := Answer sampleCatalog;
     fileText := Answer textWithoutAnchor;
     writeFile := fun _ => Answer tt |}.

(** ** Notions for the merge and for repeated runs *)

(** A text without a dollar sign: a replacement string that [replace]
    copies as it is. *)
Fixpoint plain (s : string) : bool :=
  match s with
  | EmptyString => true
  | String c rest => negb (Ascii.eqb c "$"%char) && plain rest
  end.

(** The pattern of line 99 tried where [pre] ends and [s] begins. *)
Definition matchesAt (pre s : string) : bool :=
  RegExp.matchesHere (rev (list_ascii_of_string pre)) s.

(** The type expressions that need no declaration. *)
Definition builtinTypes : list string :=
  ["number"; "boolean"; "any"; "string[]"; "Date"; "string"].

(** The world a second run finds: the same collaborators, the target file
    as the first run left it. *)
Definition rerun (w : World) : World :=
  {| enumRows := enumRows w;
     columnRows := columnRows w;
     fileText :=
       match fileText w with
       | Answer text => Answer (fileAfter text (fst (updateTypes w)))
       | Failure err => Failure err
       end;
     writeFile := writeFile w |}.

(** A target file with hand-written lines, the anchor and an old
    generated section. *)
Definition textWithAnchor : string :=
  "import knex from 'knex';" ++ Str.nl ++
  "export default db;" ++ Str.nl ++
  "export type Old = {};".

(** * Properties *)

Open Scope list_scope.

(** ** Strings *)

Lemma append_assoc (a b c : string) :
  ((a ++ b) ++ c = a ++ (b ++ c))%string.
Proof.
  induction a as [|ch a IH]; simpl; [reflexivity|].
  now rewrite IH.
Qed.

Lemma append_empty_r (a : string) : (a ++ EmptyString)%string = a.
Proof.
  induction a as [|ch a IH]; simpl; [reflexivity|].
  now rewrite IH.
Qed.

Lemma append_inv_head (a b c : string) :
  (a ++ b = a ++ c)%string -> b = c.
Proof.
  induction a as [|ch a IH]; simpl; intros H; [exact H|].
  injection H as H. now apply IH.
Qed.

Lemma append_length (a b : string) :
  String.length (a ++ b)%string = String.length a + String.length b.
Proof.
  induction a as [|ch a IH]; simpl; [reflexivity|].
  now rewrite IH.
Qed.

Lemma append_inv_tail (a b c : string) :
  (a ++ c = b ++ c)%string -> a = b.
Proof.
  revert b. induction a as [|ch a IH]; intros [|ch' b] H; simpl in H.
  - reflexivity.
  - apply (f_equal String.length) in H. simpl in H.
    rewrite append_length in H. lia.
  - apply (f_equal String.length) in H. simpl in H.
    rewrite append_length in H. lia.
  - injection H as Hc H. subst ch'. f_equal. now apply IH.
Qed.

(** ** The loops as grouping *)

Section GroupingFacts.

Variable A : Type.
Variable keyOf : A -> string.
Variables (opener member : A -> string) (closer : string).

Local Abbreviation runs := (runs keyOf).
Local Abbreviation blockOf := (blockOf opener member closer).
Local Abbreviation continuation := (continuation keyOf opener member closer).
Local Abbreviation callback := (blockCallback keyOf opener member closer).

Lemma runs_cons_inv (y : A) (r : list A) :
  exists g gs, runs (y :: r) = (y :: g) :: gs.
Proof.
  revert y. induction r as [|z r IH]; intros y.
  - now exists [], [].
  - destruct (IH z) as (g & gs & E).
    change (runs (y :: z :: r)) with
      (match runs (z :: r) with
       | g :: gs => if String.eqb (keyOf z) (keyOf y)
                    then (y :: g) :: gs else [y] :: g :: gs
       | [] => [[y]]
       end).
    rewrite E. destruct (String.eqb (keyOf z) (keyOf y)); eauto.
Qed.

Lemma runs_step (x y : A) (r : list A) :
  runs (x :: y :: r) =
  match runs (y :: r) with
  | g :: gs => if String.eqb (keyOf y) (keyOf x)
               then (x :: g) :: gs else [x] :: g :: gs
  | [] => [[x]]
  end.
Proof. reflexivity. Qed.

Lemma before_app_length (done xs : list A) (x : A) :
  before (done ++ x :: xs) (S (List.length done)) = Some x.
Proof.
  simpl. rewrite nth_error_app2 by lia. now rewrite Nat.sub_diag.
Qed.

Lemma after_app_length (done xs : list A) (x : A) :
  after (done ++ x :: xs) (List.length done) = nth_error xs 0.
Proof.
  unfold after. rewrite nth_error_app2 by lia.
  replace (List.length done + 1 - List.length done) with 1 by lia.
  reflexivity.
Qed.

Lemma forEachFrom_continuation (xs done : list A) (lines : list string) :
  forEachFrom (callback (done ++ xs)) xs (List.length done) lines =
  lines ++ continuation (before (done ++ xs) (List.length done)) xs.
Proof.
  revert done lines. induction xs as [|x rest IH]; intros done lines.
  - simpl. now rewrite app_nil_r.
  - cbn [forEachFrom].
    assert (E : done ++ x :: rest = (done ++ [x]) ++ rest)
      by now rewrite <- app_assoc.
    assert (L : S (List.length done) = List.length (done ++ [x]))
      by (rewrite length_app; simpl; lia).
    rewrite E at 1. rewrite L, IH, <- E, <- L.
    rewrite before_app_length.
    unfold blockCallback at 1. rewrite after_app_length.
    unfold continuation, push.
    generalize
      (option_map keyOf (before (done ++ x :: rest) (List.length done))).
    intros prev.
    destruct rest as [|y r].
    + cbn. destruct (differs prev (keyOf x));
        now repeat (rewrite <- app_assoc; cbn).
    + destruct (runs_cons_inv y r) as (g & gs & Ey).
      rewrite runs_step, Ey. cbn [nth_error option_map differs].
      destruct (String.eqb (keyOf y) (keyOf x)) eqn:Eyx.
      * rewrite String.eqb_sym, Eyx. cbn.
        destruct (differs prev (keyOf x));
          now repeat (rewrite <- app_assoc; cbn).
      * rewrite String.eqb_sym, Eyx. cbn.
        destruct (differs prev (keyOf x));
          now repeat (rewrite <- app_assoc; cbn).
Qed.

(** The loop pushes one block per run. *)
Lemma forEach_runs (xs : list A) (lines : list string) :
  forEach (callback xs) xs lines = lines ++ flat_map blockOf (runs xs).
Proof.
  unfold forEach.
  change (forEachFrom (callback xs) xs 0 lines) with
    (forEachFrom (callback ([] ++ xs)) xs (List.length (@nil A)) lines).
  rewrite forEachFrom_continuation. cbn [app List.length before].
  f_equal. unfold continuation. destruct xs as [|x r]; [reflexivity|].
  destruct (runs_cons_inv x r) as (g & gs & E). rewrite E. cbn.
  now rewrite <- app_assoc.
Qed.

Lemma runs_concat (xs : list A) : List.concat (runs xs) = xs.
Proof.
  induction xs as [|x [|y r] IH]; [reflexivity | reflexivity |].
  rewrite runs_step. destruct (runs_cons_inv y r) as (g & gs & E).
  rewrite E in IH |- *.
  destruct (String.eqb (keyOf y) (keyOf x)); cbn in IH |- *; now rewrite IH.
Qed.

(** A run is not empty and its rows share the key of its first row. *)
Lemma runs_same_key (xs g : list A) :
  In g (runs xs) ->
  exists h t, g = h :: t /\ Forall (fun a => keyOf a = keyOf h) g.
Proof.
  revert g. induction xs as [|x [|y r] IH]; intros g Hg.
  - destruct Hg.
  - destruct Hg as [<-|[]]. exists x, []. split; [reflexivity|].
    now constructor.
  - rewrite runs_step in Hg. destruct (runs_cons_inv y r) as (g0 & gs & E).
    rewrite E in Hg, IH.
    destruct (String.eqb (keyOf y) (keyOf x)) eqn:Eyx.
    + destruct Hg as [<-|Hg].
      * destruct (IH (y :: g0) (or_introl eq_refl)) as (h & t & Eh & Hall).
        injection Eh as <- <-. apply String.eqb_eq in Eyx.
        exists x, (y :: g0). split; [reflexivity|].
        constructor; [reflexivity|].
        eapply Forall_impl; [|exact Hall]. cbn. intros a Ha. congruence.
      * apply IH. now right.
    + destruct Hg as [<-|Hg].
      * exists x, []. split; [reflexivity|]. now constructor.
      * now apply IH.
Qed.

End GroupingFacts.

(** ** Distinct keys *)

Lemma distinct_In (k : string) (ks : list string) :
  In k (distinct ks) <-> In k ks.
Proof.
  induction ks as [|k0 ks IH]; [reflexivity|]. cbn.
  destruct (string_dec k0 k) as [->|Hne].
  - tauto.
  - split.
    + intros [E|Hin]; [now left|]. apply in_remove in Hin. tauto.
    + intros [E|Hin]; [now left|]. right. apply in_in_remove; [congruence|].
      tauto.
Qed.

Lemma distinct_NoDup (ks : list string) : NoDup (distinct ks).
Proof.
  induction ks as [|k ks IH]; cbn; constructor.
  - apply remove_In.
  - clear -IH. induction IH as [|a l Ha Hl IHl]; cbn; [constructor|].
    destruct (string_dec k a); [exact IHl|]. constructor; [|exact IHl].
    intros Hin. apply in_remove in Hin. tauto.
Qed.

Lemma distinct_repeat (k : string) (ks : list string) :
  distinct (k :: k :: ks) = distinct (k :: ks).
Proof.
  cbn. destruct (string_dec k k) as [_|N]; [|congruence].
  now rewrite remove_remove_eq.
Qed.

Lemma distinct_fresh (k : string) (ks : list string) :
  ~ In k ks -> distinct (k :: ks) = k :: distinct ks.
Proof.
  intros H. cbn. f_equal. apply notin_remove. now rewrite distinct_In.
Qed.

Section KeyFacts.

Variable A : Type.
Variable keyOf : A -> string.

Lemma withKey_same (k : string) (x : A) (r : list A) :
  keyOf x = k -> withKey keyOf k (x :: r) = x :: withKey keyOf k r.
Proof.
  intros E. unfold withKey. cbn.
  apply String.eqb_eq in E. now rewrite E.
Qed.

Lemma withKey_other (k : string) (x : A) (r : list A) :
  keyOf x <> k -> withKey keyOf k (x :: r) = withKey keyOf k r.
Proof.
  intros E. unfold withKey. cbn.
  apply String.eqb_neq in E. now rewrite E.
Qed.

Lemma withKey_absent (k : string) (r : list A) :
  ~ In k (map keyOf r) -> withKey keyOf k r = [].
Proof.
  induction r as [|x r IH]; [reflexivity|]. intros H. cbn in H.
  rewrite withKey_other by tauto. apply IH. tauto.
Qed.

Lemma withKey_In (k : string) (x : A) (r : list A) :
  In x (withKey keyOf k r) <-> In x r /\ keyOf x = k.
Proof.
  unfold withKey. rewrite filter_In, String.eqb_eq. reflexivity.
Qed.

End KeyFacts.

(** ** Sorted rows *)

Section SortedFacts.

Variable lt : string -> string -> Prop.
Hypothesis lt_strict : StrictOrder lt.

Variable A : Type.
Variable keyOf : A -> string.

Let byKey (a b : A) : Prop := le lt (keyOf a) (keyOf b).

Lemma le_trans (a b c : string) : le lt a b -> le lt b c -> le lt a c.
Proof.
  intros [Hab|<-] [Hbc|<-]; unfold le; auto.
  left. now transitivity b.
Qed.

Lemma le_antisym (a b : string) : le lt a b -> le lt b a -> a = b.
Proof.
  intros [Hab|E] [Hba|E']; auto.
  exfalso. apply (irreflexivity (R := lt) (x := a)). now transitivity b.
Qed.

Lemma sortedBy_strongly (xs : list A) :
  sortedBy lt keyOf xs -> StronglySorted byKey xs.
Proof.
  apply Sorted_StronglySorted. intros a b c. apply le_trans.
Qed.

(** In sorted rows a key that differs from the next key does not return. *)
Lemma sorted_key_fresh (x y : A) (r : list A) :
  StronglySorted byKey (x :: y :: r) ->
  keyOf y <> keyOf x ->
  ~ In (keyOf x) (map keyOf (y :: r)).
Proof.
  intros Hs Hne Hin. apply in_map_iff in Hin. destruct Hin as (z & Ez & Hz).
  apply StronglySorted_inv in Hs. destruct Hs as [Hs Hx].
  apply StronglySorted_inv in Hs. destruct Hs as [_ Hy].
  apply Forall_inv in Hx.
  destruct Hz as [<-|Hz]; [congruence|].
  rewrite Forall_forall in Hy. specialize (Hy z Hz). unfold byKey in *.
  rewrite Ez in Hy. apply Hne. now apply le_antisym.
Qed.

(** For sorted rows the runs are the rows of each distinct key. *)
Lemma runs_sorted (xs : list A) :
  StronglySorted byKey xs ->
  runs keyOf xs = map (fun k => withKey keyOf k xs) (distinct (map keyOf xs)).
Proof.
  induction xs as [|x [|y r] IH]; intros Hs.
  - reflexivity.
  - cbn. unfold withKey. cbn. now rewrite String.eqb_refl.
  - assert (Hs' := Hs). apply StronglySorted_inv in Hs'. destruct Hs' as [Hr _].
    specialize (IH Hr). rewrite runs_step.
    destruct (runs_cons_inv keyOf y r) as (g & gs & E). rewrite E.
    assert (IH' : (y :: g) :: gs =
                  withKey keyOf (keyOf y) (y :: r) ::
                  map (fun k => withKey keyOf k (y :: r))
                      (remove string_dec (keyOf y) (distinct (map keyOf r))))
      by (rewrite <- E; exact IH).
    pose proof (f_equal (@hd _ []) IH') as Eg.
    pose proof (f_equal (@tl _) IH') as Egs.
    cbn [hd tl] in Eg, Egs. clear IH IH'.
    change (map keyOf (x :: y :: r)) with (keyOf x :: keyOf y :: map keyOf r).
    destruct (String.eqb (keyOf y) (keyOf x)) eqn:Eyx.
    + apply String.eqb_eq in Eyx. rewrite <- Eyx, distinct_repeat.
      cbn [distinct map]. f_equal.
      * rewrite withKey_same by congruence. now rewrite <- Eg.
      * rewrite Egs. apply map_ext_in. intros k Hk.
        apply in_remove in Hk. symmetry. apply withKey_other.
        rewrite <- Eyx. intros Ek. now apply (proj2 Hk).
    + apply String.eqb_neq in Eyx.
      assert (Hfresh := sorted_key_fresh Hs Eyx).
      rewrite distinct_fresh by exact Hfresh.
      change (map keyOf (y :: r)) with (keyOf y :: map keyOf r) in Hfresh |- *.
      cbn [distinct map]. f_equal.
      * rewrite withKey_same by reflexivity.
        now rewrite withKey_absent by exact Hfresh.
      * f_equal.
        -- rewrite withKey_other by (intros Ek; now apply Eyx).
           exact Eg.
        -- rewrite Egs. apply map_ext_in. intros k Hk.
           apply in_remove in Hk. destruct Hk as [Hk Hne].
           apply (proj1 (distinct_In _ _)) in Hk.
           symmetry. apply withKey_other. intros Ek. apply Hfresh.
           rewrite Ek. now right.
Qed.

Lemma StronglySorted_remove (R : string -> string -> Prop)
      (k : string) (ks : list string) :
  StronglySorted R ks -> StronglySorted R (remove string_dec k ks).
Proof.
  induction 1 as [|a l Hl IH Ha]; cbn; [constructor|].
  destruct (string_dec k a); [exact IH|]. constructor; [exact IH|].
  rewrite Forall_forall in *. intros b Hb. apply in_remove in Hb.
  apply Ha. tauto.
Qed.

(** The distinct keys of sorted rows ascend strictly. *)
Lemma distinct_ascending (xs : list A) :
  StronglySorted byKey xs ->
  StronglySorted lt (distinct (map keyOf xs)).
Proof.
  induction 1 as [|x l Hl IH Hx]; cbn; constructor.
  - now apply StronglySorted_remove.
  - rewrite Forall_forall in *. intros k Hk. apply in_remove in Hk.
    destruct Hk as [Hk Hne]. apply (proj1 (distinct_In _ _)) in Hk.
    apply in_map_iff in Hk.
    destruct Hk as (z & Ez & Hz). specialize (Hx z Hz). unfold byKey in Hx.
    rewrite Ez in Hx. destruct Hx as [Hlt|E]; [exact Hlt|congruence].
Qed.

End SortedFacts.

(** ** The byte-wise order is a strict order *)

Lemma lexLt_irrefl (a : string) : ~ lexLt a a.
Proof.
  unfold lexLt. induction a as [|c a IH]; cbn; [discriminate|].
  unfold Ascii.compare. now rewrite N.compare_refl.
Qed.

Lemma lexLt_trans (a b c : string) : lexLt a b -> lexLt b c -> lexLt a c.
Proof.
  unfold lexLt. revert b c.
  induction a as [|x a IH]; intros [|y b] [|z c]; cbn; try discriminate; auto.
  unfold Ascii.compare.
  destruct (N.compare_spec (N_of_ascii x) (N_of_ascii y)) as [E1|L1|G1];
    try discriminate;
    destruct (N.compare_spec (N_of_ascii y) (N_of_ascii z)) as [E2|L2|G2];
    try discriminate;
    destruct (N.compare_spec (N_of_ascii x) (N_of_ascii z)) as [E3|L3|G3];
    try lia; auto.
  apply IH.
Qed.

Lemma lexLt_strict : StrictOrder lexLt.
Proof.
  split.
  - intros a. apply lexLt_irrefl.
  - intros a b c. apply lexLt_trans.
Qed.

(** ** A sorted loop pushes one block per distinct key *)

Lemma Sorted_map (A B : Type) (R : A -> A -> Prop) (R' : B -> B -> Prop)
      (f : A -> B) (xs : list A) :
  (forall a b, R a b -> R' (f a) (f b)) ->
  Sorted R xs -> Sorted R' (map f xs).
Proof.
  intros HR. induction 1 as [|x l Hl IH Hx]; cbn; constructor; [exact IH|].
  destruct Hx; cbn; constructor. now apply HR.
Qed.

Section SortedLoop.

Variable lt : string -> string -> Prop.
Hypothesis lt_strict : StrictOrder lt.

Variable A : Type.
Variable keyOf : A -> string.
Variables (opener member : A -> string) (closer : string).
Variable header : string -> string.

Lemma blockOf_withKey (xs : list A) (k : string) :
  (forall x, In x xs -> opener x = header (keyOf x)) ->
  In k (map keyOf xs) ->
  blockOf opener member closer (withKey keyOf k xs) =
  header k :: map member (withKey keyOf k xs) ++ [closer].
Proof.
  intros Hopen Hk. apply in_map_iff in Hk. destruct Hk as (z & Ez & Hz).
  assert (Hin : In z (withKey keyOf k xs)) by now apply withKey_In.
  destruct (withKey keyOf k xs) as [|h t] eqn:E; [destruct Hin|].
  assert (Hh : In h (withKey keyOf k xs)) by (rewrite E; now left).
  apply withKey_In in Hh. destruct Hh as [Hh Ek].
  cbn [blockOf]. now rewrite (Hopen h Hh), Ek.
Qed.

Lemma forEach_sorted (xs : list A) (lines : list string) :
  sortedBy lt keyOf xs ->
  (forall x, In x xs -> opener x = header (keyOf x)) ->
  forEach (blockCallback keyOf opener member closer xs) xs lines =
  lines ++
  List.concat (map (fun k => header k :: map member (withKey keyOf k xs) ++ [closer])
                   (distinct (map keyOf xs))).
Proof.
  intros Hs Hopen. rewrite forEach_runs. f_equal.
  rewrite (runs_sorted lt_strict keyOf (sortedBy_strongly lt_strict Hs)).
  rewrite flat_map_concat_map, map_map. f_equal.
  apply map_ext_in. intros k Hk. apply blockOf_withKey; [exact Hopen|].
  now apply distinct_In.
Qed.

End SortedLoop.

Lemma map_key_withName (rows : list EnumRow) :
  map key (map withName rows) = map typeKey rows.
Proof. rewrite map_map. now apply map_ext. Qed.

Lemma withKey_withName (k : string) (rows : list EnumRow) :
  withKey key k (map withName rows) = map withName (withKey typeKey k rows).
Proof.
  unfold withKey. induction rows as [|r rows IH]; [reflexivity|]. cbn.
  destruct (String.eqb (typeKey r) k); cbn; now rewrite IH.
Qed.

Lemma sanitize_get (v : string) (n : nat) :
  String.get n (sanitize v) =
  option_map (fun c => if isDotOrDash c then "_"%char else c) (String.get n v).
Proof.
  revert n. induction v as [|c v IH]; intros n; [reflexivity|].
  destruct n as [|n]; cbn; [reflexivity|]. apply IH.
Qed.

Lemma isDotOrDash_true (c : ascii) :
  isDotOrDash c = true <-> c = "."%char \/ c = "-"%char.
Proof.
  unfold isDotOrDash. rewrite orb_true_iff, !Ascii.eqb_eq. reflexivity.
Qed.

Lemma isDotOrDash_false (c : ascii) :
  isDotOrDash c = false <-> c <> "."%char /\ c <> "-"%char.
Proof.
  unfold isDotOrDash. rewrite orb_false_iff, !Ascii.eqb_neq. reflexivity.
Qed.

Lemma sanitize_length (v : string) :
  String.length (sanitize v) = String.length v.
Proof.
  induction v as [|c v IH]; [reflexivity|]. unfold sanitize in *. cbn.
  now rewrite IH.
Qed.

(** A dot and a dash give way to an underscore. *)
Lemma sanitize_replaced (v : string) (n : nat) (c : ascii) :
  String.get n v = Some c -> c = "."%char \/ c = "-"%char ->
  String.get n (sanitize v) = Some "_"%char.
Proof.
  intros Hget Hc. apply isDotOrDash_true in Hc.
  rewrite sanitize_get, Hget. cbn. now rewrite Hc.
Qed.

(** Every other character stays. *)
Lemma sanitize_kept (v : string) (n : nat) (c : ascii) :
  String.get n v = Some c -> c <> "."%char -> c <> "-"%char ->
  String.get n (sanitize v) = Some c.
Proof.
  intros Hget H1 H2. assert (Hc : isDotOrDash c = false)
    by now apply isDotOrDash_false.
  rewrite sanitize_get, Hget. cbn. now rewrite Hc.
Qed.

Lemma enumLines_runs (rows : list EnumRow) :
  enumLines rows =
  flat_map (blockOf enumOpen enumMember enumClose) (runs key (map withName rows)).
Proof.
  unfold enumLines.
  change (enumCallback (map withName rows)) with
    (blockCallback key enumOpen enumMember enumClose (map withName rows)).
  now rewrite forEach_runs.
Qed.

Lemma enumLines_sorted (lt : string -> string -> Prop) (rows : list EnumRow) :
  StrictOrder lt ->
  sortedBy lt typeKey rows ->
  enumLines rows =
  List.concat (map (enumBlock (map withName rows)) (distinct (map typeKey rows))).
Proof.
  intros Hlt Hs. unfold enumLines.
  change (enumCallback (map withName rows)) with
    (blockCallback key enumOpen enumMember enumClose (map withName rows)).
  rewrite (@forEach_sorted lt Hlt Enum key enumOpen enumMember enumClose
             enumHeader).
  - now rewrite map_key_withName.
  - unfold sortedBy. eapply Sorted_map; [|exact Hs]. cbn. auto.
  - intros x Hx. apply in_map_iff in Hx. destruct Hx as (r & <- & _).
    reflexivity.
Qed.

(** C3.  For enum rows sorted by type key, the enum loop pushes exactly
    one declaration block per distinct key, the keys in the order of their
    first appearance; the block of a key holds the member lines of exactly
    the rows with that key, in their order.  A member line has the raw value
    with every dot and dash replaced by an underscore as its key, and the
    raw value itself as its string literal. *)
Theorem enum_blocks_by_key
        (lt : string -> string -> Prop) (Hlt : StrictOrder lt)
        (rows : list EnumRow) (Hsorted : sortedBy lt typeKey rows) :
  let enums := map withName rows in
  let keys := distinct (map typeKey rows) in
  let blocks := map (enumBlock enums) keys in
  enumLines rows = List.concat blocks /\
  List.length blocks = List.length keys /\
  NoDup keys /\
  (forall k, In k keys <-> exists r, In r rows /\ typeKey r = k) /\
  (forall k, enumBlock enums k =
             ("export enum " ++ toIdentifier k ++ " {")%string ::
             map (fun r => enumMember (withName r))
                 (filter (fun r => String.eqb (typeKey r) k) rows) ++
             [("}" ++ Str.nl)%string]) /\
  (forall r, enumMember (withName r) =
             ("  " ++ sanitize (rawValue r) ++ " = " ++
              Str.dq ++ rawValue r ++ Str.dq ++ ",")%string) /\
  (forall v n, String.get n (sanitize v) =
               option_map (fun c => if isDotOrDash c then "_"%char else c)
                          (String.get n v)) /\
  (forall v, String.length (sanitize v) = String.length v) /\
  (forall v n c, String.get n v = Some c ->
                 c = "."%char \/ c = "-"%char ->
                 String.get n (sanitize v) = Some "_"%char) /\
  (forall v n c, String.get n v = Some c ->
                 c <> "."%char -> c <> "-"%char ->
                 String.get n (sanitize v) = Some c).
Proof.
  intros enums keys blocks.
  refine (conj _ (conj _ (conj _ (conj _ (conj _ (conj _ (conj _
           (conj sanitize_length (conj sanitize_replaced sanitize_kept))))))))).
  - now apply (enumLines_sorted (lt := lt)).
  - unfold blocks. now rewrite length_map.
  - apply distinct_NoDup.
  - intros k. split.
    + intros Hk. apply (proj1 (distinct_In _ _)) in Hk.
      apply in_map_iff in Hk. destruct Hk as (r & E & Hr). now exists r.
    + intros (r & Hr & E). apply distinct_In, in_map_iff. now exists r.
  - intros k. unfold enumBlock, enumHeader, enums.
    rewrite withKey_withName, map_map. reflexivity.
  - reflexivity.
  - apply sanitize_get.
Qed.

Ltac sorted_rows :=
  unfold sortedBy, columnLe, le, lexLt;
  repeat first [ apply Sorted_nil | apply Sorted_cons
               | apply HdRel_nil | apply HdRel_cons ];
  cbn; first [ left; reflexivity | right; reflexivity
             | right; split; [reflexivity | lia] ].

Lemma sampleEnumRows_sorted : sortedBy lexLt typeKey sampleEnumRows.
Proof. sorted_rows. Qed.

Lemma enum_blocks_by_key_witness :
  sortedBy lexLt typeKey sampleEnumRows /\
  enumLines sampleEnumRows =
  List.concat (map (enumBlock (map withName sampleEnumRows))
                   (distinct (map typeKey sampleEnumRows))) /\
  String.length (sanitize "so-so") = 5 /\
  String.get 2 (sanitize "so-so") = Some "_"%char /\
  String.get 2 (sanitize "so.so") = Some "_"%char /\
  String.get 1 (sanitize "so-so") = Some "o"%char /\
  enumMember (withName {| typeKey := "mood"; rawValue := "so-so" |}) =
  ("  so_so = " ++ Str.dq ++ "so-so" ++ Str.dq ++ ",")%string.
Proof.
  destruct (enum_blocks_by_key lexLt_strict sampleEnumRows_sorted)
    as (Hlines & _ & _ & _ & _ & Hmember & _ & Hlen & Hrep & Hkept).
  refine (conj sampleEnumRows_sorted (conj Hlines (conj (Hlen "so-so")
           (conj _ (conj _ (conj _ _)))))).
  - exact (Hrep "so-so" 2 "-"%char eq_refl (or_intror eq_refl)).
  - exact (Hrep "so.so" 2 "."%char eq_refl (or_introl eq_refl)).
  - apply (Hkept "so-so" 1 "o"%char eq_refl); discriminate.
  - rewrite (Hmember {| typeKey := "mood"; rawValue := "so-so" |}).
    reflexivity.
Defined.

Example enumLines_sample :
  enumLines sampleEnumRows =
  [ "export enum Mood {";
    ("  so_so = " ++ Str.dq ++ "so-so" ++ Str.dq ++ ",")%string;
    ("  so_so = " ++ Str.dq ++ "so.so" ++ Str.dq ++ ",")%string;
    ("}" ++ Str.nl)%string;
    "export enum StatusType {";
    ("  active = " ++ Str.dq ++ "active" ++ Str.dq ++ ",")%string;
    ("}" ++ Str.nl)%string ].
Proof. reflexivity. Qed.

(** ** Member lines *)

Lemma enumMember_inj (x y : Enum) :
  sanitize (value x) = sanitize (value y) ->
  enumMember x = enumMember y -> value x = value y.
Proof.
  unfold enumMember. intros -> H.
  do 4 apply append_inv_head in H.
  now apply append_inv_tail in H.
Qed.

(** C10.  The enum loop pushes one member line per row and drops none:
    its lines are the blocks of the runs of rows with the same key, the runs
    put together are the rows, and a block holds a member line for each row
    of its run.  Two rows of one run whose raw values differ but sanitize to
    the same key give two different member lines in that block, with the same
    key and each with its own raw value as literal. *)
Theorem enum_members_not_deduplicated (rows : list EnumRow) :
  let enums := map withName rows in
  let groups := runs key enums in
  enumLines rows = flat_map (blockOf enumOpen enumMember enumClose) groups /\
  List.concat groups = enums /\
  (forall g, In g groups ->
     exists h t, g = h :: t /\
       blockOf enumOpen enumMember enumClose g =
       enumOpen h :: map enumMember g ++ [enumClose]) /\
  (forall g x y,
     In g groups -> In x g -> In y g ->
     value x <> value y ->
     sanitize (value x) = sanitize (value y) ->
     key x = key y /\
     In (enumMember x) (blockOf enumOpen enumMember enumClose g) /\
     In (enumMember y) (blockOf enumOpen enumMember enumClose g) /\
     enumMember x <> enumMember y /\
     exists k,
       enumMember x =
         ("  " ++ k ++ " = " ++ Str.dq ++ value x ++ Str.dq ++ ",")%string /\
       enumMember y =
         ("  " ++ k ++ " = " ++ Str.dq ++ value y ++ Str.dq ++ ",")%string).
Proof.
  intros enums groups.
  refine (conj _ (conj _ (conj _ _))).
  - apply enumLines_runs.
  - apply runs_concat.
  - intros g Hg. destruct (runs_same_key key enums g Hg) as (h & t & -> & _).
    now exists h, t.
  - intros g x y Hg Hx Hy Hv Hs.
    destruct (runs_same_key key enums g Hg) as (h & t & E & Hall).
    rewrite Forall_forall in Hall.
    assert (Hin : forall z, In z g ->
              In (enumMember z) (blockOf enumOpen enumMember enumClose g)).
    { intros z Hz. rewrite E. cbn [blockOf]. right. apply in_or_app. left.
      rewrite <- E. now apply in_map. }
    refine (conj _ (conj (Hin x Hx) (conj (Hin y Hy) (conj _ _)))).
    + rewrite (Hall x Hx), (Hall y Hy). reflexivity.
    + intros Heq. apply Hv. now apply enumMember_inj.
    + exists (sanitize (value x)). split; [reflexivity|].
      unfold enumMember. now rewrite Hs.
Qed.

Lemma enum_members_not_deduplicated_witness :
  let x := withName {| typeKey := "mood"; rawValue := "so-so" |} in
  let y := withName {| typeKey := "mood"; rawValue := "so.so" |} in
  let g := [x; y] in
  In (enumMember x) (blockOf enumOpen enumMember enumClose g) /\
  In (enumMember y) (blockOf enumOpen enumMember enumClose g) /\
  enumMember x <> enumMember y.
Proof.
  intros x y g.
  destruct (enum_members_not_deduplicated sampleEnumRows)
    as (_ & _ & _ & Hpair).
  assert (Hg : In g (runs key (map withName sampleEnumRows)))
    by (left; reflexivity).
  assert (Hx : In x g) by (left; reflexivity).
  assert (Hy : In y g) by (right; left; reflexivity).
  assert (Hv : value x <> value y) by (cbn; discriminate).
  assert (Hs : sanitize (value x) = sanitize (value y)) by reflexivity.
  destruct (Hpair g x y Hg Hx Hy Hv Hs) as (_ & Hmx & Hmy & Hne & _).
  exact (conj Hmx (conj Hmy Hne)).
Defined.

(** ** Names *)

(** C5.  The unit laws of [singular] as the code computes them: the word
    addresses ends in es, so its last two letters give way to y. *)
Theorem singular_unit_laws :
  singular "categories" = "category" /\
  singular "addresses" = "addressy" /\
  singular "users" = "user" /\
  singular "data" = "data".
Proof. repeat split. Qed.

(** C5, as stated: [singular] does not turn addresses into addres. *)
Lemma singular_addresses_not_addres : singular "addresses" <> "addres".
Proof. cbv. discriminate. Qed.

Lemma recordLines_runs (enums : list Enum) (columns : list Column)
      (lines : list string) :
  forEach (columnCallback enums columns) columns lines =
  lines ++
  flat_map (blockOf recordOpen (recordField enums) recordClose)
           (runs table columns).
Proof.
  change (columnCallback enums columns) with
    (blockCallback table recordOpen (recordField enums) recordClose columns).
  apply forEach_runs.
Qed.

Lemma generateLines_runs (rows : list EnumRow) (columns : list Column) :
  generateLines rows columns =
  enumLines rows ++
  flat_map (blockOf recordOpen (recordField (map withName rows)) recordClose)
           (runs table columns).
Proof. unfold generateLines. now rewrite recordLines_runs. Qed.

(** C4.  The declaration of a table is named by casing first and
    singularizing second: every run of columns of one table opens with the
    line that names it [singular (toIdentifier table)], and each table
    that has a column has that line in the document. *)
Theorem record_name_cased_then_singular
        (rows : list EnumRow) (columns : list Column) :
  (forall g, In g (runs table columns) ->
     exists h t, g = h :: t /\
       blockOf recordOpen (recordField (map withName rows)) recordClose g =
       ("export type " ++ singular (toIdentifier (table h)) ++ " = {")%string ::
       map (recordField (map withName rows)) g ++ [recordClose]) /\
  (forall x, In x columns ->
     In ("export type " ++ singular (toIdentifier (table x)) ++ " = {")%string
        (generateLines rows columns)).
Proof.
  split.
  - intros g Hg. destruct (runs_same_key table columns g Hg) as (h & t & -> & _).
    now exists h, t.
  - intros x Hx. rewrite generateLines_runs. apply in_or_app. right.
    rewrite <- (runs_concat table columns) in Hx.
    apply in_concat in Hx. destruct Hx as (g & Hg & Hxg).
    destruct (runs_same_key table columns g Hg) as (h & t & E & Hall).
    rewrite Forall_forall in Hall. rewrite (Hall x Hxg).
    apply in_flat_map. exists g. split; [exact Hg|].
    rewrite E. now left.
Qed.

Lemma record_name_cased_then_singular_witness :
  In "export type S = {" (generateLines [] tableS).
Proof.
  apply (proj2 (record_name_cased_then_singular [] tableS)
               {| table := "s"; col := "id"; null := "NO"; type := "integer";
                  udt := "int4" |}).
  left. reflexivity.
Defined.

(** C4, as stated: for the table named s the spec's order of the two steps
    gives an empty name, and the document names the declaration S. *)
Lemma record_name_not_singular_then_cased :
  specRecordName "s" = EmptyString /\
  generateLines [] tableS =
    [ "export type S = {"; "  id: number;"; ("};" ++ Str.nl)%string ] /\
  ~ In ("export type " ++ specRecordName "s" ++ " = {")%string
       (generateLines [] tableS).
Proof.
  refine (conj eq_refl (conj eq_refl _)).
  cbv. intros [H|[H|[H|[]]]]; discriminate H.
Qed.

Example record_name_last_segment_ies :
  singular (toIdentifier "tag_ies") = "TagIy" /\
  specRecordName "tag_ies" = "TagY".
Proof. split; reflexivity. Qed.

(** ** The type table *)

Lemma find_existsb (A : Type) (f : A -> bool) (l : list A) :
  existsb f l = true -> exists a, find f l = Some a /\ In a l /\ f a = true.
Proof.
  induction l as [|a l IH]; cbn; [discriminate|].
  destruct (f a) eqn:E; cbn.
  - intros _. exists a. auto.
  - intros H. destruct (IH H) as (b & Hb & Hin & Hf). exists b. auto.
Qed.

Lemma startsWith_head (t p : string) (c : ascii) :
  Str.startsWith t (String c p) = true -> exists r, t = String c r.
Proof.
  unfold Str.startsWith. destruct t as [|d r]; cbn; [discriminate|].
  destruct (ascii_dec c d) as [->|]; [|discriminate]. intros _. now exists r.
Qed.

Lemma columnType_user_defined (enums : list Enum) (x : Column) :
  type x = "USER-DEFINED" ->
  columnType enums x =
  if existsb (fun e => String.eqb (key e) (udt x)) enums
  then option_map name (find (fun e => String.eqb (key e) (udt x)) enums)
  else Some "string".
Proof. unfold columnType. intros ->. reflexivity. Qed.

Lemma enum_known (enums : list Enum) (x : Column) (e : Enum) :
  In e enums -> key e = udt x ->
  existsb (fun e => String.eqb (key e) (udt x)) enums = true.
Proof.
  intros Hin Hk. apply existsb_exists. exists e. split; [exact Hin|].
  now apply String.eqb_eq.
Qed.

Lemma columnType_known_enum (enums : list Enum) (x : Column) (e : Enum) :
  type x = "USER-DEFINED" ->
  In e enums ->
  key e = udt x ->
  exists e',
    find (fun a => String.eqb (key a) (udt x)) enums = Some e' /\
    In e' enums /\ key e' = udt x /\
    columnType enums x = Some (name e').
Proof.
  intros Ht Hin Hk.
  assert (Hex := enum_known enums x e Hin Hk).
  destruct (find_existsb _ _ Hex) as (e' & Hfind & Hin' & Hk').
  apply String.eqb_eq in Hk'. exists e'.
  refine (conj Hfind (conj Hin' (conj Hk' _))).
  rewrite (columnType_user_defined enums x Ht), Hex, Hfind. reflexivity.
Qed.

Lemma columnType_resolved_enum (rows : list EnumRow) (x : Column) (e : Enum) :
  type x = "USER-DEFINED" ->
  In e (map withName rows) ->
  key e = udt x ->
  columnType (map withName rows) x = Some (name e).
Proof.
  intros Ht Hin Hk.
  destruct (columnType_known_enum _ x e Ht Hin Hk) as (e' & _ & Hin' & Hk' & ->).
  apply in_map_iff in Hin, Hin'.
  destruct Hin as (r & <- & _), Hin' as (r' & <- & _).
  cbn in *. congruence.
Qed.

(** C9.  For a column of type USER-DEFINED whose udt is the key of an
    element of the enum set, the lookup of line 84 finds an element with that
    key and the type expression is its name, never the absent value; in a set
    built by lines 34-36 that is the name of every element with the key. *)
Theorem enum_lookup_succeeds (enums : list Enum) (x : Column) (e : Enum) :
  type x = "USER-DEFINED" ->
  In e enums ->
  key e = udt x ->
  (exists e',
      find (fun a => String.eqb (key a) (udt x)) enums = Some e' /\
      In e' enums /\ key e' = udt x /\
      columnType enums x = Some (name e')) /\
  columnType enums x <> None /\
  ((forall a, In a enums -> name a = toIdentifier (key a)) ->
   columnType enums x = Some (name e)).
Proof.
  intros Ht Hin Hk.
  destruct (columnType_known_enum enums x e Ht Hin Hk)
    as (e' & Hfind & Hin' & Hk' & Hty).
  refine (conj _ (conj _ _)).
  - exists e'. auto.
  - rewrite Hty. discriminate.
  - intros Hnames. rewrite Hty, (Hnames e' Hin'), (Hnames e Hin). congruence.
Qed.

Lemma withName_names (rows : list EnumRow) (a : Enum) :
  In a (map withName rows) -> name a = toIdentifier (key a).
Proof.
  intros H. apply in_map_iff in H. destruct H as (r & <- & _). reflexivity.
Qed.

Lemma enum_lookup_succeeds_witness :
  columnType (map withName sampleEnumRows)
             {| table := "invoices"; col := "status"; null := "YES";
                type := "USER-DEFINED"; udt := "status_type" |}
  = Some "StatusType".
Proof.
  refine (proj2 (proj2
    (enum_lookup_succeeds (map withName sampleEnumRows)
       {| table := "invoices"; col := "status"; null := "YES";
          type := "USER-DEFINED"; udt := "status_type" |}
       (withName {| typeKey := "status_type"; rawValue := "active" |})
       eq_refl _ eq_refl)) (withName_names sampleEnumRows)).
  right. right. left. reflexivity.
Defined.

Lemma columnType_defined (enums : list Enum) (x : Column) :
  exists expr, columnType enums x = Some expr.
Proof.
  unfold columnType.
  repeat match goal with
         | |- exists _, (if ?b then _ else _) = _ =>
             destruct b eqn:?; [eexists; reflexivity|]
         end.
  - destruct (String.eqb (type x) "USER-DEFINED" &&
              existsb (fun e => String.eqb (key e) (udt x)) enums) eqn:E.
    + apply andb_true_iff in E. destruct E as [_ E].
      destruct (find_existsb _ _ E) as (e & -> & _). eexists. reflexivity.
    + eexists. reflexivity.
Qed.

Lemma columnType_fallback (enums : list Enum) (x : Column) :
  ~ isNumeric (type x) -> type x <> "boolean" -> type x <> "jsonb" ->
  ~ isTextArray x -> ~ isDate (type x) -> ~ isKnownEnum enums x ->
  columnType enums x = Some "string".
Proof.
  unfold isNumeric, isTextArray, isDate, isKnownEnum, columnType, Str.includes.
  intros Hnum Hbool Hjson Harr Hdate Henum. cbn [existsb].
  destruct (String.eqb_spec (type x) "integer"); [tauto|].
  destruct (String.eqb_spec (type x) "numeric"); [tauto|].
  destruct (String.eqb_spec (type x) "decimal"); [tauto|].
  destruct (String.eqb_spec (type x) "boolean"); [tauto|].
  destruct (String.eqb_spec (type x) "jsonb"); [tauto|].
  destruct (String.eqb_spec (type x) "ARRAY");
    [destruct (String.eqb_spec (udt x) "_text"); [tauto|]|].
  all: cbn [orb andb].
  all: destruct (Str.startsWith (type x) "timestamp"); [tauto|].
  all: destruct (String.eqb_spec (type x) "date"); [tauto|].
  all: cbn [orb andb].
  all: destruct (String.eqb_spec (type x) "USER-DEFINED"); [|reflexivity].
  all: destruct (existsb (fun e => String.eqb (key e) (udt x)) enums) eqn:E;
    [|reflexivity].
  all: exfalso; apply Henum; split; [assumption|].
  all: apply existsb_exists in E; destruct E as (a & Ha & Hk).
  all: exists a; split; [exact Ha|]; now apply String.eqb_eq.
Qed.

(** C2.  The type expression of a column follows the table of rules:
    integer, numeric and decimal give number; boolean gives boolean; jsonb
    gives any; ARRAY with udt _text gives string[]; a type that starts with
    timestamp, or date, gives Date; USER-DEFINED with the key of an enum
    gives the name of that enum; every other column gives string.  The
    field line carries the null marker exactly when the column's null is
    YES. *)
Theorem type_mapper_table (rows : list EnumRow) (x : Column) :
  let enums := map withName rows in
  (isNumeric (type x) -> columnType enums x = Some "number") /\
  (type x = "boolean" -> columnType enums x = Some "boolean") /\
  (type x = "jsonb" -> columnType enums x = Some "any") /\
  (isTextArray x -> columnType enums x = Some "string[]") /\
  (isDate (type x) -> columnType enums x = Some "Date") /\
  (forall e, type x = "USER-DEFINED" -> In e enums -> key e = udt x ->
             columnType enums x = Some (name e)) /\
  (~ isNumeric (type x) -> type x <> "boolean" -> type x <> "jsonb" ->
   ~ isTextArray x -> ~ isDate (type x) -> ~ isKnownEnum enums x ->
   columnType enums x = Some "string") /\
  (exists expr marker,
      columnType enums x = Some expr /\
      recordField enums x =
        ("  " ++ col x ++ ": " ++ expr ++ marker ++ ";")%string /\
      (null x = "YES" -> marker = " | null") /\
      (null x <> "YES" -> marker = EmptyString)).
Proof.
  intros enums.
  refine (conj _ (conj _ (conj _ (conj _ (conj _ (conj _ (conj _ _))))))).
  - unfold columnType. intros [->|[->| ->]]; reflexivity.
  - unfold columnType. intros ->. reflexivity.
  - unfold columnType. intros ->. reflexivity.
  - unfold columnType. intros [-> ->]. reflexivity.
  - unfold columnType. intros [H| ->]; [|reflexivity].
    assert (Hr := H). apply startsWith_head in Hr. destruct Hr as [r E].
    rewrite E in H |- *. cbn in H |- *. now rewrite H.
  - intros e. apply columnType_resolved_enum.
  - apply columnType_fallback.
  - destruct (columnType_defined enums x) as (expr & E).
    exists expr, (nullable x). unfold recordField, nullable. rewrite E.
    refine (conj eq_refl (conj eq_refl (conj _ _))).
    + intros ->. reflexivity.
    + intros H. apply String.eqb_neq in H. now rewrite H.
Qed.

Lemma type_mapper_table_witness :
  isDate "timestamp with time zone" /\
  columnType (map withName sampleEnumRows)
             {| table := "s"; col := "at"; null := "NO";
                type := "timestamp with time zone"; udt := "timestamptz" |}
  = Some "Date".
Proof.
  assert (H : isDate "timestamp with time zone") by (left; reflexivity).
  split; [exact H|].
  exact (proj1 (proj2 (proj2 (proj2 (proj2
    (type_mapper_table sampleEnumRows
       {| table := "s"; col := "at"; null := "NO";
          type := "timestamp with time zone"; udt := "timestamptz" |})))))
    H).
Defined.

(** ** Joining and splitting *)

Lemma join_cons (sep a : string) (l : list string) :
  l <> [] -> Str.join sep (a :: l) = (a ++ sep ++ Str.join sep l)%string.
Proof. destruct l; [congruence|reflexivity]. Qed.

Lemma join_app (sep : string) (l1 l2 : list string) :
  l1 <> [] -> l2 <> [] ->
  Str.join sep (l1 ++ l2) =
  (Str.join sep l1 ++ sep ++ Str.join sep l2)%string.
Proof.
  intros H1 H2. induction l1 as [|a [|b l1] IH]; [congruence| |].
  - cbn [app]. now rewrite join_cons.
  - change ((a :: b :: l1) ++ l2) with (a :: ((b :: l1) ++ l2)).
    rewrite join_cons by discriminate. rewrite IH by discriminate.
    rewrite (@join_cons sep a (b :: l1)) by discriminate.
    now rewrite !append_assoc.
Qed.

Lemma join_concat (sep : string) (bs : list (list string)) :
  (forall b, In b bs -> b <> []) ->
  Str.join sep (List.concat bs) = Str.join sep (map (Str.join sep) bs).
Proof.
  induction bs as [|b [|b' bs] IH]; intros Hne; [reflexivity| |].
  - cbn. now rewrite app_nil_r.
  - change (List.concat (b :: b' :: bs)) with (b ++ List.concat (b' :: bs)).
    rewrite join_app.
    + rewrite IH by (intros c Hc; apply Hne; now right).
      change (map (Str.join sep) (b :: b' :: bs)) with
        (Str.join sep b :: map (Str.join sep) (b' :: bs)).
      now rewrite join_cons by discriminate.
    + apply Hne. now left.
    + assert (Hb' : b' <> []) by (apply Hne; right; now left).
      destruct b'; [congruence|]. discriminate.
Qed.

Lemma join_last (sep a b : string) (l : list string) :
  Str.join sep (l ++ [(a ++ b)%string]) = (Str.join sep (l ++ [a]) ++ b)%string.
Proof.
  induction l as [|x [|y l] IH]; [reflexivity| |].
  - cbn. now rewrite !append_assoc.
  - change ((x :: y :: l) ++ [(a ++ b)%string])
      with (x :: ((y :: l) ++ [(a ++ b)%string])).
    change ((x :: y :: l) ++ [a]) with (x :: ((y :: l) ++ [a])).
    rewrite !join_cons by discriminate. rewrite IH.
    now rewrite !append_assoc.
Qed.

Lemma splitLines_cons (a : string) : exists l ls, splitLines a = l :: ls.
Proof.
  induction a as [|c a (l & ls & E)]; cbn [splitLines].
  - now exists EmptyString, [].
  - destruct (Ascii.eqb c (ascii_of_nat 10)).
    + now exists EmptyString, (splitLines a).
    + rewrite E. now exists (String c l), ls.
Qed.

Lemma splitLines_app_nl (a b : string) :
  splitLines (a ++ Str.nl ++ b) = splitLines a ++ splitLines b.
Proof.
  induction a as [|c a IH]; [reflexivity|]. cbn [String.append splitLines].
  destruct (Ascii.eqb c (ascii_of_nat 10)).
  - cbn [String.append] in IH. now rewrite IH.
  - cbn [String.append] in IH. rewrite IH.
    destruct (splitLines_cons a) as (l & ls & ->). reflexivity.
Qed.

Lemma splitLines_nl (a : string) :
  splitLines (a ++ Str.nl) = splitLines a ++ [EmptyString].
Proof.
  rewrite <- (append_empty_r Str.nl) at 1. apply splitLines_app_nl.
Qed.

(** Texts that each end in a newline, joined by newlines: every one is
    followed by an empty line. *)
Lemma splitLines_blocks (bodies : list string) :
  bodies <> [] ->
  splitLines (Str.join Str.nl (map (fun t => (t ++ Str.nl)%string) bodies)) =
  List.concat (map (fun t => splitLines t ++ [EmptyString]) bodies).
Proof.
  induction bodies as [|t [|t' bodies] IH]; intros Hne; [congruence| |].
  - cbn [map Str.join String.concat List.concat]. rewrite app_nil_r.
    apply splitLines_nl.
  - change (map (fun t => (t ++ Str.nl)%string) (t :: t' :: bodies)) with
      ((t ++ Str.nl)%string ::
       map (fun t => (t ++ Str.nl)%string) (t' :: bodies)).
    rewrite join_cons by discriminate.
    rewrite splitLines_app_nl, splitLines_nl, IH by discriminate.
    reflexivity.
Qed.

(** ** The sorted catalog *)

Lemma map_table_selectColumn (catalog : list CatalogColumn) :
  map table (map selectColumn catalog) = map table_name catalog.
Proof. rewrite map_map. now apply map_ext. Qed.

Lemma withKey_selectColumn (t : string) (catalog : list CatalogColumn) :
  withKey table t (map selectColumn catalog) =
  map selectColumn (withKey table_name t catalog).
Proof.
  unfold withKey. induction catalog as [|r catalog IH]; [reflexivity|]. cbn.
  destruct (String.eqb (table_name r) t); cbn; now rewrite IH.
Qed.

Lemma StronglySorted_filter (A : Type) (R R' : A -> A -> Prop)
      (f : A -> bool) (l : list A) :
  (forall a b, f a = true -> f b = true -> R a b -> R' a b) ->
  StronglySorted R l -> StronglySorted R' (filter f l).
Proof.
  intros HR. induction 1 as [|a l Hl IH Ha]; cbn; [constructor|].
  destruct (f a) eqn:Ea; [|exact IH]. constructor; [exact IH|].
  rewrite Forall_forall in *. intros b Hb. apply filter_In in Hb.
  destruct Hb as [Hb Eb]. apply HR; auto.
Qed.

Section SortedCatalog.

Variable lt : string -> string -> Prop.
Hypothesis lt_strict : StrictOrder lt.

Lemma columnLe_trans (a b c : CatalogColumn) :
  columnLe lt a b -> columnLe lt b c -> columnLe lt a c.
Proof.
  unfold columnLe. intros [Hab|[Eab Hab]] [Hbc|[Ebc Hbc]].
  - left. now transitivity (table_name b).
  - left. now rewrite <- Ebc.
  - left. now rewrite Eab.
  - right. split; [congruence|lia].
Qed.

Lemma catalog_sortedBy_table (catalog : list CatalogColumn) :
  Sorted (columnLe lt) catalog ->
  sortedBy lt table (map selectColumn catalog).
Proof.
  unfold sortedBy. apply Sorted_map. intros a b [H|[H _]]; cbn.
  - now left.
  - now right.
Qed.

(** The columns of one table come in the order of their positions. *)
Lemma catalog_fields_by_position (catalog : list CatalogColumn) (t : string) :
  Sorted (columnLe lt) catalog ->
  StronglySorted (fun a b => ordinal_position a <= ordinal_position b)
                 (withKey table_name t catalog).
Proof.
  intros Hs. unfold withKey.
  apply (StronglySorted_filter (R := columnLe lt)).
  - intros a b Ea Eb [H|[_ H]]; [|exact H]. exfalso.
    apply String.eqb_eq in Ea, Eb. rewrite Ea, Eb in H.
    exact (irreflexivity H).
  - apply Sorted_StronglySorted; [|exact Hs].
    intros a b c. apply columnLe_trans.
Qed.

Lemma generateLines_sorted (rows : list EnumRow) (catalog : list CatalogColumn) :
  sortedBy lt typeKey rows ->
  Sorted (columnLe lt) catalog ->
  generateLines rows (map selectColumn catalog) =
  List.concat
    (map (enumBlock (map withName rows)) (distinct (map typeKey rows)) ++
     map (recordBlock (map withName rows) (map selectColumn catalog))
         (distinct (map table_name catalog))).
Proof.
  intros Hrows Hcat. unfold generateLines.
  change (forEach (enumCallback (map withName rows)) (map withName rows) [])
    with (enumLines rows).
  change (columnCallback (map withName rows) (map selectColumn catalog)) with
    (blockCallback table recordOpen (recordField (map withName rows)) recordClose
                   (map selectColumn catalog)).
  rewrite (@forEach_sorted lt lt_strict Column table recordOpen
             (recordField (map withName rows)) recordClose recordHeader).
  - rewrite (enumLines_sorted lt_strict Hrows), concat_app.
    now rewrite map_table_selectColumn.
  - now apply catalog_sortedBy_table.
  - reflexivity.
Qed.

End SortedCatalog.

Lemma enumBlock_text (enums : list Enum) (k : string) :
  Str.join Str.nl (enumBlock enums k) = (enumBody enums k ++ Str.nl)%string.
Proof.
  unfold enumBlock, enumBody, enumClose.
  rewrite !app_comm_cons. apply join_last.
Qed.

Lemma recordBlock_text (enums : list Enum) (columns : list Column) (t : string) :
  Str.join Str.nl (recordBlock enums columns t) =
  (recordBody enums columns t ++ Str.nl)%string.
Proof.
  unfold recordBlock, recordBody, recordClose.
  rewrite !app_comm_cons. apply join_last.
Qed.

(** C6.  For enum rows sorted by type key and catalog columns sorted by
    table and then by position, the document is the enum blocks followed by
    the record blocks; the record blocks stand in strictly ascending order of
    their tables; the fields of a record block are the columns of its table
    in ascending order of position; and every block ends in an empty line:
    split at newlines, the text is, block after block, the lines of the
    block up to its closing brace and then one empty line. *)
Theorem document_order
        (lt : string -> string -> Prop) (Hlt : StrictOrder lt)
        (rows : list EnumRow) (catalog : list CatalogColumn)
        (Hrows : sortedBy lt typeKey rows)
        (Hcat : Sorted (columnLe lt) catalog) :
  let enums := map withName rows in
  let columns := map selectColumn catalog in
  let keys := distinct (map typeKey rows) in
  let tables := distinct (map table_name catalog) in
  let blocks :=
    map (enumBlock enums) keys ++ map (recordBlock enums columns) tables in
  let bodies :=
    map (enumBody enums) keys ++ map (recordBody enums columns) tables in
  generateLines rows columns = List.concat blocks /\
  StronglySorted lt tables /\
  (forall t,
     recordBlock enums columns t =
       ("export type " ++ singular (toIdentifier t) ++ " = {")%string ::
       map (fun r => recordField enums (selectColumn r))
           (filter (fun r => String.eqb (table_name r) t) catalog) ++
       [("};" ++ Str.nl)%string] /\
     StronglySorted (fun a b => ordinal_position a <= ordinal_position b)
                    (filter (fun r => String.eqb (table_name r) t) catalog)) /\
  generatedText rows columns =
    Str.join Str.nl (map (fun body => (body ++ Str.nl)%string) bodies) /\
  (bodies <> [] ->
   splitLines (generatedText rows columns) =
   List.concat (map (fun body => splitLines body ++ [EmptyString]) bodies)).
Proof.
  intros enums columns keys tables blocks bodies.
  assert (Hlines : generateLines rows columns = List.concat blocks)
    by now apply (generateLines_sorted Hlt).
  assert (Htext : generatedText rows columns =
                  Str.join Str.nl
                    (map (fun body => (body ++ Str.nl)%string) bodies)).
  { unfold generatedText. fold columns. rewrite Hlines, join_concat.
    - f_equal. unfold blocks, bodies. rewrite !map_app, !map_map. f_equal.
      + apply map_ext. intros k. apply enumBlock_text.
      + apply map_ext. intros t. apply recordBlock_text.
    - intros b Hb. unfold blocks in Hb. apply in_app_or in Hb.
      destruct Hb as [Hb|Hb]; apply in_map_iff in Hb;
        destruct Hb as (k & <- & _); discriminate. }
  refine (conj Hlines (conj _ (conj _ (conj Htext _)))).
  - unfold tables. rewrite <- map_table_selectColumn.
    apply (distinct_ascending table).
    apply (sortedBy_strongly Hlt). now apply catalog_sortedBy_table.
  - intros t. split.
    + unfold recordBlock, recordHeader, columns.
      rewrite withKey_selectColumn, map_map. reflexivity.
    + now apply (catalog_fields_by_position Hlt).
  - intros Hne. rewrite Htext. now apply splitLines_blocks.
Qed.

Lemma sampleCatalog_sorted : Sorted (columnLe lexLt) sampleCatalog.
Proof. sorted_rows. Qed.

Lemma document_order_witness :
  sortedBy lexLt typeKey sampleEnumRows /\
  Sorted (columnLe lexLt) sampleCatalog /\
  generateLines sampleEnumRows (map selectColumn sampleCatalog) =
  List.concat
    (map (enumBlock (map withName sampleEnumRows))
         (distinct (map typeKey sampleEnumRows)) ++
     map (recordBlock (map withName sampleEnumRows)
                      (map selectColumn sampleCatalog))
         (distinct (map table_name sampleCatalog))).
Proof.
  refine (conj sampleEnumRows_sorted (conj sampleCatalog_sorted _)).
  exact (proj1 (document_order lexLt_strict
                  sampleEnumRows_sorted sampleCatalog_sorted)).
Defined.

Example generatedText_sample :
  splitLines (generatedText sampleEnumRows (map selectColumn sampleCatalog)) =
  [ "export enum Mood {";
    ("  so_so = " ++ Str.dq ++ "so-so" ++ Str.dq ++ ",")%string;
    ("  so_so = " ++ Str.dq ++ "so.so" ++ Str.dq ++ ",")%string;
    "}"; EmptyString;
    "export enum StatusType {";
    ("  active = " ++ Str.dq ++ "active" ++ Str.dq ++ ",")%string;
    "}"; EmptyString;
    "export type Invoicy = {";
    "  id: number;";
    "  status: StatusType | null;";
    "};"; EmptyString;
    "export type S = {";
    "  at: Date;";
    "};"; EmptyString ].
Proof. reflexivity. Qed.

(** ** The run *)

Lemma generate_answered (w : World)
      (rows : list EnumRow) (catalog : list CatalogColumn) :
  enumRows w = Answer rows ->
  columnRows w = Answer catalog ->
  generate w =
  ([DbQuery "pg_type"; DbQuery "columns"],
   Fulfilled (generateLines rows (map selectColumn catalog))).
Proof. unfold generate. intros -> ->. reflexivity. Qed.

Lemma updateTypes_writes (w : World)
      (rows : list EnumRow) (catalog : list CatalogColumn) (text : string) :
  enumRows w = Answer rows ->
  columnRows w = Answer catalog ->
  fileText w = Answer text ->
  let source :=
    RegExp.replace text
      (replacement (generateLines rows (map selectColumn catalog))) in
  writeFile w source = Answer tt ->
  updateTypes w =
  ([DbQuery "pg_type"; DbQuery "columns"; FsRead; FsWrite source],
   Fulfilled tt).
Proof.
  intros Hrows Hcat Htext source Hwrite. unfold updateTypes.
  rewrite (generate_answered w Hrows Hcat), Htext.
  cbv beta iota zeta delta [bind await writeFileSync].
  fold source. rewrite Hwrite. reflexivity.
Qed.

Lemma replace_no_match (text template : string) :
  RegExp.exec [] text = None -> RegExp.replace text template = text.
Proof. unfold RegExp.replace. now intros ->. Qed.

Example replace_after_anchor :
  RegExp.replace
    ("import knex from 'knex';" ++ Str.nl ++
     "export default db;" ++ Str.nl ++ "export type Old = {};")%string
    (replacement ["export type New = {"; ("};" ++ Str.nl)%string]) =
  ("import knex from 'knex';" ++ Str.nl ++
   "export default db;" ++ Str.nl ++ Str.nl ++
   "// The TypeScript definitions below are automatically generated." ++ Str.nl ++
   "// Do not touch them, or risk, your modifications being lost." ++ Str.nl ++
   Str.nl ++
   "export type New = {" ++ Str.nl ++ "};" ++ Str.nl)%string.
Proof. reflexivity. Qed.

(** The anchor as the last characters of the text has nothing after it for
    the group to take, so the pattern does not match there either. *)
Example replace_anchor_at_end :
  RegExp.replace "export default db;" (replacement []) = "export default db;".
Proof. reflexivity. Qed.

(** C1.  When the pattern of line 99 has no match in the text of the
    target file, the replacement gives the text back as it is; the run does
    not fail on that account: it writes the unchanged text to the file and
    completes, so the file holds its original text afterwards. *)
Theorem merge_without_anchor (w : World)
        (rows : list EnumRow) (catalog : list CatalogColumn) (text : string) :
  enumRows w = Answer rows ->
  columnRows w = Answer catalog ->
  fileText w = Answer text ->
  writeFile w text = Answer tt ->
  RegExp.exec [] text = None ->
  (forall template, RegExp.replace text template = text) /\
  updateTypes w =
    ([DbQuery "pg_type"; DbQuery "columns"; FsRead; FsWrite text],
     Fulfilled tt) /\
  fileAfter text (fst (updateTypes w)) = text /\
  main w =
    ([DbQuery "pg_type"; DbQuery "columns"; FsRead; FsWrite text; DbDestroy],
     Fulfilled tt).
Proof.
  intros Hrows Hcat Htext Hwrite Hnone.
  assert (Hrep : forall template, RegExp.replace text template = text)
    by (intros template; now apply replace_no_match).
  assert (Hrun : updateTypes w =
                 ([DbQuery "pg_type"; DbQuery "columns"; FsRead; FsWrite text],
                  Fulfilled tt)).
  { rewrite (updateTypes_writes w Hrows Hcat Htext); rewrite Hrep; auto. }
  refine (conj Hrep (conj Hrun (conj _ _))).
  - rewrite Hrun. reflexivity.
  - unfold main. rewrite Hrun. reflexivity.
Qed.

Lemma merge_without_anchor_witness :
  RegExp.exec [] textWithoutAnchor = None /\
  updateTypes (sampleWorld textWithoutAnchor) =
    ([DbQuery "pg_type"; DbQuery "columns"; FsRead;
      FsWrite textWithoutAnchor],
     Fulfilled tt).
Proof.
  split; [reflexivity|].
  exact (proj1 (proj2
    (merge_without_anchor (sampleWorld textWithoutAnchor)
       eq_refl eq_refl eq_refl eq_refl eq_refl))).
Defined.

(** C1, as stated: the target file has lost its anchor line, and the run
    neither fails nor refrains from writing. *)
Lemma merge_error_not_raised :
  RegExp.exec [] textWithoutAnchor = None /\
  snd (updateTypes (sampleWorld textWithoutAnchor)) = Fulfilled tt /\
  existsb isWrite (fst (updateTypes (sampleWorld textWithoutAnchor))) = true /\
  ~ ((exists err,
         snd (updateTypes (sampleWorld textWithoutAnchor)) = Rejected err) /\
     existsb isWrite (fst (updateTypes (sampleWorld textWithoutAnchor)))
       = false).
Proof.
  refine (conj eq_refl (conj eq_refl (conj eq_refl _))).
  intros [_ H]. discriminate H.
Qed.

Lemma main_fulfilled (w : World) (tr : list Event) :
  updateTypes w = (tr, Fulfilled tt) ->
  main w = (tr ++ [DbDestroy], Fulfilled tt).
Proof. unfold main. intros ->. reflexivity. Qed.

Lemma main_rejected (w : World) (tr : list Event) (err : Error) :
  updateTypes w = (tr, Rejected err) ->
  main w = (tr ++ [ConsoleError err; ProcessExit 1], Exited 1).
Proof. unfold main. intros ->. reflexivity. Qed.

(** C7.  When the first catalog query fails, the handler of line 110 logs
    the error and exits the process with code 1; the callback of line 114
    does not run and the connection is not destroyed. *)
Theorem release_skipped_on_failure :
  main catalogDown =
    ([DbQuery "pg_type"; ConsoleError "connection refused"; ProcessExit 1],
     Exited 1) /\
  ~ In DbDestroy (fst (main catalogDown)).
Proof.
  split; [reflexivity|].
  cbv. intros [H|[H|[H|[]]]]; discriminate H.
Qed.

(** C8.  The generated text is a function of the catalog rows alone: a
    run whose queries are answered generates [generatedText] of the rows,
    and two runs with the same rows generate the same text, whatever the
    target file holds and whatever becomes of the write. *)
Theorem generated_text_deterministic (w1 w2 : World)
        (rows : list EnumRow) (catalog : list CatalogColumn) :
  enumRows w1 = Answer rows -> columnRows w1 = Answer catalog ->
  enumRows w2 = Answer rows -> columnRows w2 = Answer catalog ->
  generatedBy w1 = Some (generatedText rows (map selectColumn catalog)) /\
  generatedBy w2 = generatedBy w1.
Proof.
  intros H1 H1' H2 H2'. unfold generatedBy.
  rewrite (generate_answered w1 H1 H1'), (generate_answered w2 H2 H2').
  split; reflexivity.
Qed.

Lemma generated_text_deterministic_witness :
  generatedBy (sampleWorld textWithoutAnchor) =
  generatedBy (sampleWorld "export default db;").
Proof.
  exact (proj2
    (generated_text_deterministic
       (sampleWorld "export default db;") (sampleWorld textWithoutAnchor)
       (rows := sampleEnumRows) (catalog := sampleCatalog)
       eq_refl eq_refl eq_refl eq_refl)).
Defined.

(** * Further properties *)

(** ** Suffixes *)

Lemma substring_all (s : string) : substring 0 (String.length s) s = s.
Proof. induction s as [|c s IH]; cbn; [reflexivity|]. now rewrite IH. Qed.

Lemma substring_zero (s : string) : substring 0 0 s = EmptyString.
Proof. now destruct s. Qed.

Lemma substring_take_app (p s : string) :
  substring 0 (String.length p) (p ++ s)%string = p.
Proof.
  induction p as [|c p IH]; cbn; [apply substring_zero|]. now rewrite IH.
Qed.

Lemma substring_skip_app (p s : string) :
  substring (String.length p) (String.length s) (p ++ s)%string = s.
Proof.
  induction p as [|c p IH]; cbn; [apply substring_all|]. exact IH.
Qed.

Lemma substring_split (n : nat) (w : string) :
  n <= String.length w ->
  w = (substring 0 n w ++ substring n (String.length w - n) w)%string.
Proof.
  revert w. induction n as [|n IH]; intros w Hn.
  - rewrite substring_zero, Nat.sub_0_r, substring_all. reflexivity.
  - destruct w as [|c w]; cbn in Hn; [lia|]. cbn.
    f_equal. apply IH. lia.
Qed.

Lemma endsWith_app (p s : string) : Str.endsWith (p ++ s)%string s = true.
Proof.
  unfold Str.endsWith. rewrite append_length.
  replace (String.length p + String.length s - String.length s)
    with (String.length p) by lia.
  rewrite substring_skip_app, String.eqb_refl, andb_true_r.
  apply Nat.leb_le. lia.
Qed.

Lemma endsWith_inv (w s : string) :
  Str.endsWith w s = true -> exists p, w = (p ++ s)%string.
Proof.
  unfold Str.endsWith. intros H. apply andb_true_iff in H.
  destruct H as [Hle Heq]. apply Nat.leb_le in Hle.
  apply String.eqb_eq in Heq.
  exists (substring 0 (String.length w - String.length s) w).
  assert (Hsplit := @substring_split (String.length w - String.length s) w).
  replace (String.length w - (String.length w - String.length s))
    with (String.length s) in Hsplit by lia.
  rewrite Heq in Hsplit. apply Hsplit. lia.
Qed.

Lemma endsWith_longer (p s t : string) :
  Str.endsWith p s = false -> Str.endsWith (p ++ t)%string (s ++ t)%string = false.
Proof.
  intros H. destruct (Str.endsWith (p ++ t) (s ++ t)) eqn:E; [|reflexivity].
  apply endsWith_inv in E. destruct E as [q E].
  rewrite <- append_assoc in E. apply append_inv_tail in E.
  rewrite E, endsWith_app in H. discriminate H.
Qed.

Lemma endsWith_shorter (w s t : string) :
  Str.endsWith w t = false -> Str.endsWith w (s ++ t)%string = false.
Proof.
  intros H. destruct (Str.endsWith w (s ++ t)) eqn:E; [|reflexivity].
  apply endsWith_inv in E. destruct E as [q E].
  rewrite <- append_assoc in E. rewrite E, endsWith_app in H. discriminate H.
Qed.

Lemma take_app (p s : string) (n : nat) :
  n = String.length s ->
  Str.take (String.length (p ++ s)%string - n) (p ++ s)%string = p.
Proof.
  intros ->. unfold Str.take. rewrite append_length.
  replace (String.length p + String.length s - String.length s)
    with (String.length p) by lia.
  apply substring_take_app.
Qed.

(** ** [singular] on suffixes *)

Lemma singular_ies (p : string) : singular (p ++ "ies") = (p ++ "y")%string.
Proof.
  unfold singular. rewrite endsWith_app.
  now rewrite (@take_app p "ies" 3).
Qed.

Lemma singular_es (p : string) :
  Str.endsWith p "i" = false -> singular (p ++ "es") = (p ++ "y")%string.
Proof.
  intros H. unfold singular.
  pose proof (@endsWith_longer p "i" "es" H) as E3.
  change (Str.endsWith (p ++ "es") "ies" = false) in E3.
  rewrite E3, endsWith_app.
  now rewrite (@take_app p "es" 2).
Qed.

Lemma singular_s (p : string) :
  Str.endsWith p "e" = false -> singular (p ++ "s") = p.
Proof.
  intros H. unfold singular.
  pose proof (@endsWith_longer p "ie" "s" (@endsWith_shorter p "i" "e" H)) as E3.
  pose proof (@endsWith_longer p "e" "s" H) as E2.
  change (Str.endsWith (p ++ "s") "ies" = false) in E3.
  change (Str.endsWith (p ++ "s") "es" = false) in E2.
  rewrite E3, E2, endsWith_app.
  now rewrite (@take_app p "s" 1).
Qed.

(** X1.  What [singular] does to each suffix: a final ies becomes y
    whatever precedes it; a final es becomes y when no i precedes it; a
    final s is dropped when no e precedes it. *)
Theorem singular_suffix_laws (p : string) :
  singular (p ++ "ies") = (p ++ "y")%string /\
  (Str.endsWith p "i" = false -> singular (p ++ "es") = (p ++ "y")%string) /\
  (Str.endsWith p "e" = false -> singular (p ++ "s") = p).
Proof.
  refine (conj (singular_ies p) (conj _ _)).
  - apply singular_es.
  - apply singular_s.
Qed.

Lemma singular_suffix_laws_witness :
  Str.endsWith "box" "i" = false /\ singular "boxes" = "boxy" /\
  Str.endsWith "user" "e" = false /\ singular "users" = "user".
Proof.
  refine (conj eq_refl (conj _ (conj eq_refl _))).
  - exact (proj1 (proj2 (singular_suffix_laws "box")) eq_refl).
  - exact (proj2 (proj2 (singular_suffix_laws "user")) eq_refl).
Defined.

Lemma singular_unchanged (w : string) :
  Str.endsWith w "s" = false -> singular w = w.
Proof.
  intros H. unfold singular.
  pose proof (@endsWith_shorter w "ie" "s" H) as E3.
  pose proof (@endsWith_shorter w "e" "s" H) as E2.
  change (Str.endsWith w "ies" = false) in E3.
  change (Str.endsWith w "es" = false) in E2.
  now rewrite E3, E2, H.
Qed.

Lemma singular_shorter (w : string) :
  Str.endsWith w "s" = true -> String.length (singular w) < String.length w.
Proof.
  intros H. unfold singular.
  destruct (Str.endsWith w "ies") eqn:E3.
  - apply endsWith_inv in E3. destruct E3 as [q ->].
    rewrite (@take_app q "ies" 3) by reflexivity.
    rewrite !append_length. cbn. lia.
  - destruct (Str.endsWith w "es") eqn:E2.
    + apply endsWith_inv in E2. destruct E2 as [q ->].
      rewrite (@take_app q "es" 2) by reflexivity.
      rewrite !append_length. cbn. lia.
    + rewrite H. apply endsWith_inv in H. destruct H as [q ->].
      rewrite (@take_app q "s" 1) by reflexivity.
      rewrite append_length. cbn. lia.
Qed.

(** X2.  [singular] leaves a word as it is exactly when the word does not
    end in s; a word that ends in s comes back strictly shorter, and no word
    comes back longer. *)
Theorem singular_fixed_or_shorter (w : string) :
  (singular w = w <-> Str.endsWith w "s" = false) /\
  (Str.endsWith w "s" = true ->
   String.length (singular w) < String.length w) /\
  String.length (singular w) <= String.length w.
Proof.
  refine (conj _ (conj (@singular_shorter w) _)).
  - split; [|apply singular_unchanged].
    intros E. destruct (Str.endsWith w "s") eqn:Hs; [|reflexivity].
    apply singular_shorter in Hs. rewrite E in Hs. lia.
  - destruct (Str.endsWith w "s") eqn:Hs.
    + apply singular_shorter in Hs. lia.
    + rewrite (singular_unchanged w Hs). lia.
Qed.

Lemma singular_fixed_or_shorter_witness :
  Str.endsWith "data" "s" = false /\ singular "data" = "data" /\
  Str.endsWith "status" "s" = true /\
  String.length (singular "status") < String.length "status".
Proof.
  refine (conj eq_refl (conj _ (conj eq_refl _))).
  - exact (proj2 (proj1 (singular_fixed_or_shorter "data")) eq_refl).
  - exact (proj1 (proj2 (singular_fixed_or_shorter "status")) eq_refl).
Defined.

(** ** Member keys *)

Lemma isDotOrDash_replaced (c : ascii) :
  isDotOrDash (if isDotOrDash c then "_"%char else c) = false.
Proof. destruct (isDotOrDash c) eqn:E; [reflexivity|exact E]. Qed.

(** X3.  The member key made on line 43 has the length of the raw value;
    where the value has a dot or a dash the key has an underscore, and
    everywhere else the key has the character of the value.  So the key holds
    no dot and no dash, a value without dots and dashes is its own key, and
    making the key twice changes nothing more. *)
Theorem sanitize_properties (v : string) :
  String.length (sanitize v) = String.length v /\
  (forall n c, String.get n v = Some c ->
               c = "."%char \/ c = "-"%char ->
               String.get n (sanitize v) = Some "_"%char) /\
  (forall n c, String.get n v = Some c ->
               c <> "."%char -> c <> "-"%char ->
               String.get n (sanitize v) = Some c) /\
  (forall n c, String.get n (sanitize v) = Some c ->
               c <> "."%char /\ c <> "-"%char) /\
  ((forall n c, String.get n v = Some c -> c <> "."%char /\ c <> "-"%char) ->
   sanitize v = v) /\
  sanitize (sanitize v) = sanitize v.
Proof.
  assert (Hclean : forall u,
             (forall n c, String.get n u = Some c ->
                          c <> "."%char /\ c <> "-"%char) ->
             sanitize u = u).
  { induction u as [|c u IH]; intros H; [reflexivity|]. unfold sanitize. cbn.
    rewrite (proj2 (isDotOrDash_false c) (H 0 c eq_refl)). f_equal. apply IH.
    intros n d Hd. exact (H (S n) d Hd). }
  assert (Hnone : forall u n c,
             String.get n (sanitize u) = Some c ->
             c <> "."%char /\ c <> "-"%char).
  { intros u n c. rewrite sanitize_get.
    destruct (String.get n u) as [d|]; cbn; [|discriminate].
    intros E. injection E as <-. apply isDotOrDash_false.
    apply isDotOrDash_replaced. }
  refine (conj (sanitize_length v)
           (conj (@sanitize_replaced v)
             (conj (@sanitize_kept v) (conj (Hnone v) (conj (Hclean v) _))))).
  apply Hclean. apply Hnone.
Qed.

Lemma sanitize_properties_witness :
  String.get 1 (sanitize "a.b-c") = Some "_"%char /\
  String.get 3 (sanitize "a.b-c") = Some "_"%char /\
  String.get 2 (sanitize "a.b-c") = Some "b"%char /\
  (forall n c, String.get n "active" = Some c ->
               c <> "."%char /\ c <> "-"%char) /\
  sanitize "active" = "active".
Proof.
  assert (H : forall n c, String.get n "active" = Some c ->
                          c <> "."%char /\ c <> "-"%char).
  { intros n c.
    do 6 (destruct n as [|n];
          [cbn; intros E; injection E as <-; split; discriminate|]).
    cbn. discriminate. }
  destruct (sanitize_properties "a.b-c") as (_ & Hrep & Hkept & _).
  refine (conj _ (conj _ (conj _ (conj H _)))).
  - exact (Hrep 1 "."%char eq_refl (or_introl eq_refl)).
  - exact (Hrep 3 "-"%char eq_refl (or_intror eq_refl)).
  - apply (Hkept 2 "b"%char eq_refl); discriminate.
  - exact (proj1 (proj2 (proj2 (proj2 (proj2 (sanitize_properties "active")))))
                 H).
Defined.

(** ** Runs *)

Section RunFacts.

Variable A : Type.
Variable keyOf : A -> string.
Variables (opener member : A -> string) (closer : string).

(** Neighbouring runs have different keys: the runs are maximal. *)
Lemma runs_maximal (xs : list A) :
  Sorted (fun g1 g2 => forall a b, In a g1 -> In b g2 -> keyOf a <> keyOf b)
         (runs keyOf xs).
Proof.
  induction xs as [|x [|y r] IH].
  - constructor.
  - cbn. repeat constructor.
  - rewrite runs_step. destruct (runs_cons_inv keyOf y r) as (g & gs & E).
    rewrite E in IH |- *.
    assert (Hsame : Forall (fun a => keyOf a = keyOf y) (y :: g)).
    { destruct (runs_same_key keyOf (y :: r) (y :: g)) as (h & t & Eh & Hall).
      - rewrite E. now left.
      - injection Eh as <- <-. exact Hall. }
    rewrite Forall_forall in Hsame.
    apply Sorted_inv in IH. destruct IH as [Hs Hd].
    destruct (String.eqb (keyOf y) (keyOf x)) eqn:Eyx.
    + apply String.eqb_eq in Eyx. constructor; [exact Hs|].
      destruct Hd as [|g2 gs' Hd]; constructor.
      intros a b [<-|Ha] Hb.
      * rewrite <- Eyx. apply Hd; [now left|exact Hb].
      * now apply Hd.
    + apply String.eqb_neq in Eyx. constructor.
      * now constructor.
      * constructor. intros a b [<-|[]] Hb.
        rewrite (Hsame b Hb). congruence.
Qed.

Lemma runs_nonempty (xs g : list A) : In g (runs keyOf xs) -> g <> [].
Proof.
  intros Hg. destruct (runs_same_key keyOf xs g Hg) as (h & t & -> & _).
  discriminate.
Qed.

Lemma blocks_length (gs : list (list A)) :
  (forall g, In g gs -> g <> []) ->
  List.length (flat_map (blockOf opener member closer) gs) =
  List.length (List.concat gs) + 2 * List.length gs.
Proof.
  induction gs as [|g gs IH]; intros Hne; [reflexivity|].
  cbn [flat_map List.concat List.length]. rewrite !length_app.
  rewrite IH by (intros g' Hg'; apply Hne; now right).
  assert (Hg : g <> []) by (apply Hne; now left).
  destruct g as [|h t]; [congruence|]. cbn [blockOf List.length].
  rewrite length_app, length_map. cbn. lia.
Qed.

Lemma runs_blocks_length (xs : list A) :
  List.length (flat_map (blockOf opener member closer) (runs keyOf xs)) =
  List.length xs + 2 * List.length (runs keyOf xs).
Proof.
  rewrite blocks_length by apply runs_nonempty.
  now rewrite runs_concat.
Qed.

End RunFacts.

(** ** The document of unsorted rows *)

(** X4.  For any rows, sorted or not, the document is one enum block per
    run of neighbouring enum rows with the same key, followed by one record
    block per run of neighbouring columns with the same table.  The runs of
    columns put together are the columns, the columns of a run share their
    table, neighbouring runs belong to different tables, and the document
    has a line for every enum row and every column and two more lines for
    every run. *)
Theorem document_of_runs (rows : list EnumRow) (columns : list Column) :
  let enums := map withName rows in
  let enumRuns := runs key enums in
  let tableRuns := runs table columns in
  generateLines rows columns =
    flat_map (blockOf enumOpen enumMember enumClose) enumRuns ++
    flat_map (blockOf recordOpen (recordField enums) recordClose) tableRuns /\
  List.concat tableRuns = columns /\
  (forall g, In g tableRuns ->
     exists h t, g = h :: t /\ Forall (fun c => table c = table h) g) /\
  Sorted (fun g1 g2 => forall a b, In a g1 -> In b g2 -> table a <> table b)
         tableRuns /\
  List.length (generateLines rows columns) =
    List.length rows + List.length columns +
    2 * (List.length enumRuns + List.length tableRuns).
Proof.
  intros enums enumRuns tableRuns.
  assert (Hlines : generateLines rows columns =
            flat_map (blockOf enumOpen enumMember enumClose) enumRuns ++
            flat_map (blockOf recordOpen (recordField enums) recordClose)
                     tableRuns)
    by (rewrite generateLines_runs, enumLines_runs; reflexivity).
  refine (conj Hlines (conj _ (conj _ (conj _ _)))).
  - apply runs_concat.
  - apply runs_same_key.
  - apply runs_maximal.
  - rewrite Hlines, length_app. unfold enumRuns, tableRuns.
    rewrite !runs_blocks_length. unfold enums. rewrite length_map. lia.
Qed.

Example table_declared_twice :
  generateLines []
    [ {| table := "a"; col := "x"; null := "NO"; type := "text"; udt := "text" |};
      {| table := "b"; col := "y"; null := "NO"; type := "text"; udt := "text" |};
      {| table := "a"; col := "z"; null := "NO"; type := "text"; udt := "text" |} ]
  = [ "export type A = {"; "  x: string;"; ("};" ++ Str.nl)%string;
      "export type B = {"; "  y: string;"; ("};" ++ Str.nl)%string;
      "export type A = {"; "  z: string;"; ("};" ++ Str.nl)%string ].
Proof. reflexivity. Qed.

(** ** Type expressions and declarations *)

Lemma enum_header_declared (rows : list EnumRow) (r : EnumRow) :
  In r rows -> In (enumHeader (typeKey r)) (enumLines rows).
Proof.
  intros Hr. rewrite enumLines_runs.
  assert (Hin : In (withName r) (List.concat (runs key (map withName rows))))
    by (rewrite runs_concat; now apply in_map).
  apply in_concat in Hin. destruct Hin as (g & Hg & Hrg).
  destruct (runs_same_key key _ g Hg) as (h & t & E & Hall).
  rewrite Forall_forall in Hall.
  assert (Hh : In h (map withName rows)).
  { rewrite <- (runs_concat key (map withName rows)). apply in_concat.
    exists g. split; [exact Hg|]. rewrite E. now left. }
  apply in_map_iff in Hh. destruct Hh as (r' & Eh & _).
  apply in_flat_map. exists g. split; [exact Hg|].
  rewrite E. cbn [blockOf]. left.
  specialize (Hall (withName r) Hrg). rewrite <- Eh in Hall |- *.
  cbn in Hall. unfold enumOpen, enumHeader, toIdentifier. cbn. now rewrite Hall.
Qed.

(** X5.  A field never refers to a type that the document does not know:
    the type expression of any column is one of the six built-in ones or the
    name of an enum whose declaration the enum loop has pushed. *)
Theorem type_expressions_declared
        (rows : list EnumRow) (columns : list Column) (x : Column) (e : string) :
  columnType (map withName rows) x = Some e ->
  In e builtinTypes \/
  In ("export enum " ++ e ++ " {")%string (generateLines rows columns).
Proof.
  unfold columnType, builtinTypes.
  repeat match goal with
         | |- (if ?b then Some ?s else _) = _ -> _ =>
             destruct b eqn:?;
             [intros E; injection E as <-; left; cbn; tauto|]
         end.
  destruct (String.eqb (type x) "USER-DEFINED" &&
            existsb (fun a => String.eqb (key a) (udt x)) (map withName rows))
    eqn:Hen.
  - apply andb_true_iff in Hen. destruct Hen as [_ Hex].
    destruct (find_existsb _ _ Hex) as (a & -> & Ha & _). cbn.
    intros E. injection E as <-. right.
    apply in_map_iff in Ha. destruct Ha as (r & <- & Hr).
    unfold generateLines.
    change (forEach (enumCallback (map withName rows)) (map withName rows) [])
      with (enumLines rows).
    rewrite recordLines_runs. apply in_or_app. left.
    exact (enum_header_declared rows r Hr).
  - intros E. injection E as <-. left. cbn. tauto.
Qed.

Lemma type_expressions_declared_witness :
  In "StatusType" builtinTypes \/
  In "export enum StatusType {"
     (generateLines sampleEnumRows (map selectColumn sampleCatalog)).
Proof.
  exact (type_expressions_declared sampleEnumRows
           (map selectColumn sampleCatalog)
           {| table := "invoices"; col := "status"; null := "YES";
              type := "USER-DEFINED"; udt := "status_type" |}
           eq_refl).
Defined.

(** ** The end of the document *)

Section LastLine.

Variable A : Type.
Variable keyOf : A -> string.
Variables (opener member : A -> string) (closer : string).

Lemma blocks_last (gs : list (list A)) :
  gs <> [] -> (forall g, In g gs -> g <> []) ->
  exists l, flat_map (blockOf opener member closer) gs = l ++ [closer].
Proof.
  induction gs as [|g [|g' gs] IH]; intros Hgs Hne; [congruence| |].
  - assert (Hg : g <> []) by (apply Hne; now left).
    destruct g as [|h t]; [congruence|].
    exists (opener h :: map member (h :: t)). cbn. now rewrite app_nil_r.
  - destruct IH as [l El]; [discriminate|intros g0 H0; apply Hne; now right|].
    exists (blockOf opener member closer g ++ l).
    change (flat_map (blockOf opener member closer) (g :: g' :: gs)) with
      (blockOf opener member closer g ++
       flat_map (blockOf opener member closer) (g' :: gs)).
    now rewrite El, app_assoc.
Qed.

Lemma runs_last (xs : list A) :
  xs <> [] ->
  exists l, flat_map (blockOf opener member closer) (runs keyOf xs)
            = l ++ [closer].
Proof.
  intros Hxs. apply blocks_last; [|apply runs_nonempty].
  destruct xs as [|x r]; [congruence|].
  destruct (runs_cons_inv keyOf x r) as (g & gs & ->). discriminate.
Qed.

End LastLine.

Lemma generateLines_length (rows : list EnumRow) (columns : list Column) :
  List.length (generateLines rows columns) =
  List.length rows + List.length columns +
  2 * (List.length (runs key (map withName rows)) +
       List.length (runs table columns)).
Proof.
  rewrite generateLines_runs, enumLines_runs, length_app.
  rewrite !runs_blocks_length, length_map. lia.
Qed.

(** X6.  The document is empty exactly when there is no enum row and no
    column; in every other case its text ends in a newline. *)
Theorem document_end (rows : list EnumRow) (columns : list Column) :
  (generateLines rows columns = [] <-> rows = [] /\ columns = []) /\
  (rows = [] /\ columns = [] -> generatedText rows columns = EmptyString) /\
  (rows <> [] \/ columns <> [] ->
   exists body, generatedText rows columns = (body ++ Str.nl)%string).
Proof.
  refine (conj _ (conj _ _)).
  - split.
    + intros E. apply (f_equal (@List.length string)) in E.
      rewrite generateLines_length in E. cbn in E.
      destruct rows, columns; cbn in E; try lia. now split.
    + intros [-> ->]. reflexivity.
  - intros [-> ->]. reflexivity.
  - intros Hne. unfold generatedText. rewrite generateLines_runs, enumLines_runs.
    destruct columns as [|c columns].
    + destruct Hne as [Hr|Hc]; [|congruence]. cbn [runs flat_map].
      rewrite app_nil_r.
      destruct (@runs_last Enum key enumOpen enumMember enumClose
                  (map withName rows)) as [l ->].
      * destruct rows; [congruence|discriminate].
      * exists (Str.join Str.nl (l ++ ["}"])). apply join_last.
    + destruct (@runs_last Column table recordOpen
                  (recordField (map withName rows)) recordClose
                  (c :: columns)) as [l ->]; [discriminate|].
      rewrite app_assoc.
      exists (Str.join Str.nl
                ((flat_map (blockOf enumOpen enumMember enumClose)
                           (runs key (map withName rows)) ++ l) ++ ["};"])).
      apply join_last.
Qed.

Lemma document_end_witness :
  (sampleEnumRows <> [] \/ map selectColumn sampleCatalog <> []) /\
  exists body,
    generatedText sampleEnumRows (map selectColumn sampleCatalog) =
    (body ++ Str.nl)%string.
Proof.
  assert (H : sampleEnumRows <> [] \/ map selectColumn sampleCatalog <> [])
    by (left; discriminate).
  split; [exact H|].
  exact (proj2 (proj2 (document_end sampleEnumRows
                         (map selectColumn sampleCatalog))) H).
Defined.

(** ** Searching for the anchor *)

Lemma exec_unfold (seen : list ascii) (s : string) :
  RegExp.exec seen s =
  if RegExp.matchesHere seen s
  then Some (string_of_list_ascii (rev seen),
             Str.drop (String.length anchor) s)
  else match s with
       | EmptyString => None
       | String c rest => RegExp.exec (c :: seen) rest
       end.
Proof. destruct s; reflexivity. Qed.

Lemma prefix_drop (a s : string) :
  prefix a s = true -> s = (a ++ Str.drop (String.length a) s)%string.
Proof.
  revert s. induction a as [|c a IH]; intros s H; [reflexivity|].
  destruct s as [|d s]; cbn in H; [discriminate|].
  destruct (ascii_dec c d) as [->|]; [|discriminate].
  cbn. f_equal. now apply IH.
Qed.

Lemma drop_length (n : nat) (s : string) :
  String.length (Str.drop n s) = String.length s - n.
Proof.
  revert s. induction n as [|n IH]; intros s; cbn; [lia|].
  destruct s as [|c s]; cbn; [reflexivity|apply IH].
Qed.

Lemma string_of_list_ascii_app (l1 l2 : list ascii) :
  string_of_list_ascii (l1 ++ l2) =
  (string_of_list_ascii l1 ++ string_of_list_ascii l2)%string.
Proof. induction l1 as [|c l1 IH]; cbn; [reflexivity|]. now rewrite IH. Qed.

Lemma string_of_list_ascii_length (l : list ascii) :
  String.length (string_of_list_ascii l) = List.length l.
Proof. induction l as [|c l IH]; cbn; [reflexivity|]. now rewrite IH. Qed.

Lemma matchesHere_inv (seen : list ascii) (s : string) :
  RegExp.matchesHere seen s = true ->
  RegExp.atLineStart seen = true /\
  s = (anchor ++ Str.drop (String.length anchor) s)%string /\
  Str.drop (String.length anchor) s <> EmptyString.
Proof.
  unfold RegExp.matchesHere. intros H.
  apply andb_true_iff in H. destruct H as [H Hlen].
  apply andb_true_iff in H. destruct H as [Hstart Hpre].
  apply Nat.ltb_lt in Hlen.
  refine (conj Hstart (conj (prefix_drop _ _ Hpre) _)).
  intros E. apply (f_equal String.length) in E.
  rewrite drop_length in E. cbn [String.length] in E. lia.
Qed.

Lemma rev_cons_app (c : ascii) (l seen : list ascii) :
  rev (c :: l) ++ seen = rev l ++ c :: seen.
Proof. cbn. now rewrite <- app_assoc. Qed.

Lemma exec_Some (s : string) (seen : list ascii) (pre g : string) :
  RegExp.exec seen s = Some (pre, g) ->
  exists mid,
    s = (mid ++ anchor ++ g)%string /\
    pre = (string_of_list_ascii (rev seen) ++ mid)%string /\
    g <> EmptyString /\
    RegExp.matchesHere (rev (list_ascii_of_string mid) ++ seen)
                       (anchor ++ g) = true /\
    (forall a b, mid = (a ++ b)%string -> b <> EmptyString ->
       RegExp.matchesHere (rev (list_ascii_of_string a) ++ seen)
                          (b ++ anchor ++ g) = false).
Proof.
  revert seen. induction s as [|c s IH]; intros seen; rewrite exec_unfold.
  - destruct (RegExp.matchesHere seen EmptyString) eqn:E; [|discriminate].
    apply matchesHere_inv in E. destruct E as (_ & E & _).
    unfold anchor in E. cbn in E. discriminate E.
  - destruct (RegExp.matchesHere seen (String c s)) eqn:E.
    + intros H. injection H as <- <-.
      destruct (matchesHere_inv _ _ E) as (_ & Es & Hg).
      exists EmptyString.
      refine (conj Es (conj _ (conj Hg (conj _ _)))).
      * now rewrite append_empty_r.
      * change (RegExp.matchesHere seen
                  (anchor ++ Str.drop (String.length anchor) (String c s))
                = true).
        now rewrite <- Es.
      * intros a b Hab Hb. destruct a, b; cbn in Hab; congruence.
    + intros H. destruct (IH _ H) as (mid & Es & Epre & Hg & Hm & Hmin).
      exists (String c mid). cbn [list_ascii_of_string].
      rewrite rev_cons_app.
      refine (conj _ (conj _ (conj Hg (conj Hm _)))).
      * cbn. now rewrite Es.
      * rewrite Epre. cbn [rev]. rewrite string_of_list_ascii_app.
        now rewrite append_assoc.
      * intros a b Hab Hb. destruct a as [|d a].
        -- cbn [String.append] in Hab. subst b.
           change (RegExp.matchesHere seen (String c (mid ++ anchor ++ g))
                   = false).
           now rewrite <- Es.
        -- cbn in Hab. injection Hab as <- Hab. cbn [list_ascii_of_string].
           rewrite rev_cons_app. now apply Hmin.
Qed.

Lemma exec_found (mid : string) (seen : list ascii) (s : string) :
  RegExp.matchesHere (rev (list_ascii_of_string mid) ++ seen) s = true ->
  exists pre g,
    RegExp.exec seen (mid ++ s) = Some (pre, g) /\
    String.length pre <= List.length seen + String.length mid.
Proof.
  revert seen. induction mid as [|c mid IH]; intros seen H; rewrite exec_unfold.
  - cbn in H |- *. rewrite H. eexists _, _. split; [reflexivity|].
    rewrite string_of_list_ascii_length, length_rev. lia.
  - destruct (RegExp.matchesHere seen (String c mid ++ s)) eqn:E.
    + eexists _, _. split; [reflexivity|].
      rewrite string_of_list_ascii_length, length_rev. lia.
    + cbn [list_ascii_of_string] in H. rewrite rev_cons_app in H.
      cbn [String.append]. destruct (IH _ H) as (pre & g & Ex & Hlen).
      exists pre, g. split; [exact Ex|]. cbn in Hlen |- *. lia.
Qed.

Lemma exec_exact (mid : string) (seen : list ascii) (s : string) :
  (forall a b, mid = (a ++ b)%string -> b <> EmptyString ->
     RegExp.matchesHere (rev (list_ascii_of_string a) ++ seen) (b ++ s)
     = false) ->
  RegExp.matchesHere (rev (list_ascii_of_string mid) ++ seen) s = true ->
  RegExp.exec seen (mid ++ s) =
  Some ((string_of_list_ascii (rev seen) ++ mid)%string,
        Str.drop (String.length anchor) s).
Proof.
  revert seen. induction mid as [|c mid IH]; intros seen Hmin H;
    rewrite exec_unfold.
  - cbn in H |- *. now rewrite H, append_empty_r.
  - assert (E0 : RegExp.matchesHere seen (String c mid ++ s) = false)
      by (apply (Hmin EmptyString (String c mid) eq_refl); discriminate).
    rewrite E0. cbn [String.append]. cbn [list_ascii_of_string] in H.
    rewrite rev_cons_app in H. rewrite IH.
    + cbn [rev]. now rewrite string_of_list_ascii_app, append_assoc.
    + intros a b Hab Hb. rewrite <- rev_cons_app.
      apply (Hmin (String c a) b); [cbn; now rewrite Hab|exact Hb].
    + exact H.
Qed.

Lemma prefix_app (a s : string) : prefix a (a ++ s)%string = true.
Proof.
  induction a as [|c a IH]; [now destruct s|]. cbn.
  destruct (ascii_dec c c); [exact IH|congruence].
Qed.

Lemma matchesHere_anchor (seen : list ascii) (g : string) :
  RegExp.atLineStart seen = true -> g <> EmptyString ->
  RegExp.matchesHere seen (anchor ++ g) = true.
Proof.
  intros Hs Hg. unfold RegExp.matchesHere.
  rewrite Hs, prefix_app, append_length. cbn [andb].
  apply Nat.ltb_lt. destruct g; [congruence|]. cbn. lia.
Qed.

(** X7.  What the search returns is the first place where the pattern
    matches: the text is the part before the match, the anchor and the group;
    the group is not empty; the anchor stands at the start of a line; and the
    pattern matches at no earlier place of the text. *)
Theorem exec_leftmost (text pre g : string) :
  RegExp.exec [] text = Some (pre, g) ->
  text = (pre ++ anchor ++ g)%string /\
  g <> EmptyString /\
  RegExp.atLineStart (rev (list_ascii_of_string pre)) = true /\
  (forall a b, pre = (a ++ b)%string -> b <> EmptyString ->
     matchesAt a (b ++ anchor ++ g) = false).
Proof.
  intros H. destruct (exec_Some _ _ H) as (mid & Et & Epre & Hg & Hm & Hmin).
  cbn in Epre. subst mid. rewrite app_nil_r in Hm.
  refine (conj Et (conj Hg (conj _ _))).
  - now destruct (matchesHere_inv _ _ Hm).
  - intros a b Hab Hb. unfold matchesAt.
    rewrite <- (app_nil_r (rev (list_ascii_of_string a))). now apply Hmin.
Qed.

Lemma exec_leftmost_witness :
  RegExp.exec [] textWithAnchor =
    Some (("import knex from 'knex';" ++ Str.nl)%string,
          (Str.nl ++ "export type Old = {};")%string) /\
  textWithAnchor =
    (("import knex from 'knex';" ++ Str.nl) ++ anchor ++
     (Str.nl ++ "export type Old = {};"))%string.
Proof.
  assert (H : RegExp.exec [] textWithAnchor =
              Some (("import knex from 'knex';" ++ Str.nl)%string,
                    (Str.nl ++ "export type Old = {};")%string))
    by reflexivity.
  split; [exact H|]. exact (proj1 (exec_leftmost _ H)).
Defined.

(** X8.  The search misses no match: it returns nothing exactly when the
    pattern matches at no place of the text, and when the anchor stands at
    the start of a line with something after it, the search finds a match
    there or earlier. *)
Theorem exec_complete (text : string) :
  (RegExp.exec [] text = None <->
   forall a b, text = (a ++ b)%string -> matchesAt a b = false) /\
  (forall pre g,
     text = (pre ++ anchor ++ g)%string ->
     RegExp.atLineStart (rev (list_ascii_of_string pre)) = true ->
     g <> EmptyString ->
     exists pre' g',
       RegExp.exec [] text = Some (pre', g') /\
       String.length pre' <= String.length pre).
Proof.
  assert (Hfound : forall a b, text = (a ++ b)%string -> matchesAt a b = true ->
            exists pre' g', RegExp.exec [] text = Some (pre', g') /\
                            String.length pre' <= String.length a).
  { intros a b -> Hm. unfold matchesAt in Hm.
    rewrite <- (app_nil_r (rev (list_ascii_of_string a))) in Hm.
    destruct (exec_found a [] b Hm) as (pre' & g' & Ex & Hlen).
    exists pre', g'. split; [exact Ex|exact Hlen]. }
  split.
  - split.
    + intros Hnone a b Eab. destruct (matchesAt a b) eqn:Hm; [|reflexivity].
      destruct (Hfound a b Eab Hm) as (pre' & g' & Ex & _). congruence.
    + intros Hno. destruct (RegExp.exec [] text) as [[pre g]|] eqn:Ex;
        [|reflexivity].
      destruct (exec_Some _ _ Ex) as (mid & Et & _ & _ & Hm & _).
      rewrite app_nil_r in Hm.
      assert (Hf := Hno mid (anchor ++ g)%string Et).
      unfold matchesAt in Hf. congruence.
  - intros pre g Et Hstart Hg. apply (Hfound pre (anchor ++ g)%string Et).
    unfold matchesAt. now apply matchesHere_anchor.
Qed.

Lemma exec_complete_witness :
  exists pre' g',
    RegExp.exec [] textWithAnchor = Some (pre', g') /\
    String.length pre' <= String.length ("import knex from 'knex';" ++ Str.nl).
Proof.
  apply (proj2 (exec_complete textWithAnchor)
               ("import knex from 'knex';" ++ Str.nl)%string
               (Str.nl ++ "export type Old = {};")%string).
  - reflexivity.
  - reflexivity.
  - discriminate.
Defined.

(** ** Replacing *)

Lemma plain_app (a b : string) : plain (a ++ b) = plain a && plain b.
Proof.
  induction a as [|c a IH]; [reflexivity|]. cbn. rewrite IH.
  now rewrite andb_assoc.
Qed.

Lemma substitute_app_plain (pre m g post a t : string) :
  plain a = true ->
  RegExp.substitute pre m g post (a ++ t) =
  (a ++ RegExp.substitute pre m g post t)%string.
Proof.
  induction a as [|c a IH]; intros H; [reflexivity|]. cbn in H.
  apply andb_true_iff in H. destruct H as [Hc Ha].
  cbn [String.append RegExp.substitute]. rewrite Hc. now rewrite IH.
Qed.

Lemma substitute_plain (pre m g post t : string) :
  plain t = true -> RegExp.substitute pre m g post t = t.
Proof.
  intros H. rewrite <- (append_empty_r t) at 1.
  rewrite substitute_app_plain by exact H. apply append_empty_r.
Qed.

Lemma replacement_plain (lines : list string) :
  plain (Str.join Str.nl lines) = true -> plain (replacement lines) = true.
Proof.
  intros H. unfold replacement. rewrite !plain_app, H. reflexivity.
Qed.

Lemma replace_plain (text pre g template : string) :
  RegExp.exec [] text = Some (pre, g) ->
  plain template = true ->
  RegExp.replace text template = (pre ++ template)%string.
Proof.
  intros Ex Hp. unfold RegExp.replace. rewrite Ex.
  now rewrite substitute_plain.
Qed.

(** X9.  When the pattern matches and the document holds no dollar sign,
    the merged text is the text before the anchor followed by the anchor,
    the banner and the document: what stands before the anchor is kept as it
    is and everything from the anchor on is replaced. *)
Theorem merge_keeps_prefix (text pre g : string) (lines : list string) :
  RegExp.exec [] text = Some (pre, g) ->
  plain (Str.join Str.nl lines) = true ->
  text = (pre ++ anchor ++ g)%string /\
  RegExp.replace text (replacement lines) =
  (pre ++ anchor ++ Str.nl ++ Str.nl ++
   "// The TypeScript definitions below are automatically generated." ++
   Str.nl ++
   "// Do not touch them, or risk, your modifications being lost." ++
   Str.nl ++ Str.nl ++ Str.join Str.nl lines)%string.
Proof.
  intros Ex Hp. split.
  - destruct (exec_Some _ _ Ex) as (mid & Et & Epre & _). cbn in Epre.
    now subst mid.
  - rewrite (@replace_plain text pre g (replacement lines) Ex
               (replacement_plain lines Hp)).
    reflexivity.
Qed.

Lemma merge_keeps_prefix_witness :
  RegExp.replace textWithAnchor (replacement ["export type New = {};"]) =
  ("import knex from 'knex';" ++ Str.nl ++
   "export default db;" ++ Str.nl ++ Str.nl ++
   "// The TypeScript definitions below are automatically generated." ++
   Str.nl ++
   "// Do not touch them, or risk, your modifications being lost." ++
   Str.nl ++ Str.nl ++ "export type New = {};")%string.
Proof.
  exact (proj2 (@merge_keeps_prefix textWithAnchor
                  ("import knex from 'knex';" ++ Str.nl)%string
                  (Str.nl ++ "export type Old = {};")%string
                  ["export type New = {};"] eq_refl eq_refl)).
Defined.

Lemma substitute_dollar (pre m g post t : string) :
  RegExp.substitute pre m g post ("$$" ++ t) =
    ("$" ++ RegExp.substitute pre m g post t)%string /\
  RegExp.substitute pre m g post ("$&" ++ t) =
    (m ++ RegExp.substitute pre m g post t)%string /\
  RegExp.substitute pre m g post ("$1" ++ t) =
    (g ++ RegExp.substitute pre m g post t)%string /\
  RegExp.substitute pre m g post ("$`" ++ t) =
    (pre ++ RegExp.substitute pre m g post t)%string /\
  RegExp.substitute pre m g post ("$'" ++ t) =
    (post ++ RegExp.substitute pre m g post t)%string.
Proof.
  refine (conj eq_refl (conj eq_refl (conj _ (conj eq_refl eq_refl)))).
  destruct t as [|d t]; [|reflexivity].
  cbn. now rewrite append_empty_r.
Qed.

(** X10.  A dollar pattern in the replacement string is not copied but
    expanded: two dollars give one, dollar-ampersand gives the matched old
    text from the anchor to the end, dollar-one gives the old text after the
    anchor, dollar-backtick gives the text before the anchor, and
    dollar-quote gives nothing, the match reaching the end of the text. *)
Theorem merge_expands_dollar_patterns (text pre g a b : string) :
  RegExp.exec [] text = Some (pre, g) ->
  plain a = true -> plain b = true ->
  RegExp.replace text (a ++ "$$" ++ b) = (pre ++ a ++ "$" ++ b)%string /\
  RegExp.replace text (a ++ "$&" ++ b) = (pre ++ a ++ (anchor ++ g) ++ b)%string /\
  RegExp.replace text (a ++ "$1" ++ b) = (pre ++ a ++ g ++ b)%string /\
  RegExp.replace text (a ++ "$`" ++ b) = (pre ++ a ++ pre ++ b)%string /\
  RegExp.replace text (a ++ "$'" ++ b) = (pre ++ a ++ b)%string.
Proof.
  intros Ex Ha Hb. unfold RegExp.replace. rewrite Ex.
  rewrite !(fun t => @substitute_app_plain pre (anchor ++ g) g EmptyString
                       a t Ha).
  destruct (substitute_dollar pre (anchor ++ g) g EmptyString b)
    as (E1 & E2 & E3 & E4 & E5).
  rewrite E1, E2, E3, E4, E5.
  rewrite (@substitute_plain pre (anchor ++ g) g EmptyString b Hb).
  repeat split.
Qed.

Lemma merge_expands_dollar_patterns_witness :
  RegExp.replace textWithAnchor ("  usd = " ++ "$1" ++ ",") =
  ("import knex from 'knex';" ++ Str.nl ++
   "  usd = " ++ (Str.nl ++ "export type Old = {};") ++ ",")%string.
Proof.
  exact (proj1 (proj2 (proj2
    (@merge_expands_dollar_patterns textWithAnchor
       ("import knex from 'knex';" ++ Str.nl)%string
       (Str.nl ++ "export type Old = {};")%string
       "  usd = " "," eq_refl eq_refl eq_refl)))).
Defined.

(** ** Merging twice *)

Lemma prefix_app_indep (a s t u : string) :
  String.length a <= String.length s ->
  prefix a (s ++ t) = prefix a (s ++ u).
Proof.
  revert s. induction a as [|c a IH]; intros s Hlen.
  - now destruct (s ++ t)%string, (s ++ u)%string.
  - destruct s as [|d s]; cbn in Hlen; [lia|]. cbn.
    destruct (ascii_dec c d); [|reflexivity]. apply IH. lia.
Qed.

(** Before the anchor, whether the pattern matches does not depend on
    what follows the anchor. *)
Lemma matchesHere_indep (seen : list ascii) (b t u : string) :
  b <> EmptyString ->
  RegExp.matchesHere seen (b ++ anchor ++ t) =
  RegExp.matchesHere seen (b ++ anchor ++ u).
Proof.
  intros Hb. unfold RegExp.matchesHere.
  rewrite <- !append_assoc.
  rewrite (@prefix_app_indep anchor (b ++ anchor) t u)
    by (rewrite append_length; lia).
  f_equal. rewrite !append_length.
  destruct b as [|c b]; [congruence|]. cbn [String.length].
  transitivity true; [|symmetry]; apply Nat.ltb_lt; lia.
Qed.

Lemma replacement_anchor (lines : list string) :
  exists tail, tail <> EmptyString /\
               replacement lines = (anchor ++ tail)%string.
Proof.
  eexists. split; [|reflexivity]. discriminate.
Qed.

Lemma replace_again (text pre g template tail : string) :
  RegExp.exec [] text = Some (pre, g) ->
  template = (anchor ++ tail)%string -> tail <> EmptyString ->
  RegExp.exec [] (pre ++ template) =
  Some (pre, Str.drop (String.length anchor) template).
Proof.
  intros Ex -> Htail.
  destruct (exec_Some _ _ Ex) as (mid & _ & Epre & _ & Hm & Hmin).
  cbn in Epre. subst mid.
  rewrite (@exec_exact pre [] (anchor ++ tail)); [reflexivity| |].
  - intros a b Hab Hb. rewrite (@matchesHere_indep _ b tail g Hb).
    now apply Hmin.
  - destruct (matchesHere_inv _ _ Hm) as (Hstart & _).
    now apply matchesHere_anchor.
Qed.

Lemma replace_twice (text : string) (lines : list string) :
  plain (Str.join Str.nl lines) = true ->
  RegExp.replace (RegExp.replace text (replacement lines)) (replacement lines)
  = RegExp.replace text (replacement lines).
Proof.
  intros Hp. assert (Hr := replacement_plain lines Hp).
  destruct (RegExp.exec [] text) as [[pre g]|] eqn:Ex.
  - rewrite (@replace_plain text pre g _ Ex Hr).
    destruct (replacement_anchor lines) as (tail & Htail & Et).
    exact (@replace_plain _ pre _ _
             (@replace_again text pre g _ tail Ex Et Htail) Hr).
  - now rewrite !(@replace_no_match text (replacement lines) Ex).
Qed.

(** X11.  Merging the same document twice gives what merging it once
    gives, when the document holds no dollar sign: the second merge finds the
    anchor where the first one found it and writes the same text after
    it. *)
Theorem merge_idempotent (text : string) (lines : list string) :
  plain (Str.join Str.nl lines) = true ->
  RegExp.replace (RegExp.replace text (replacement lines)) (replacement lines)
  = RegExp.replace text (replacement lines).
Proof. apply replace_twice. Qed.

Lemma merge_idempotent_witness :
  RegExp.replace
    (RegExp.replace textWithAnchor (replacement ["export type New = {};"]))
    (replacement ["export type New = {};"])
  = RegExp.replace textWithAnchor (replacement ["export type New = {};"]).
Proof.
  exact (@merge_idempotent textWithAnchor ["export type New = {};"] eq_refl).
Defined.

(** ** Failing and repeated runs *)

(** X12.  A query or a read that fails ends [updateTypes] at once with
    that error: nothing later is attempted, so no column query follows a
    failed enum query, and nothing is written to the target file. *)
Theorem failure_before_write (w : World) (err : Error) :
  (enumRows w = Failure err ->
   updateTypes w = ([DbQuery "pg_type"], Rejected err)) /\
  (forall rows,
     enumRows w = Answer rows -> columnRows w = Failure err ->
     updateTypes w = ([DbQuery "pg_type"; DbQuery "columns"], Rejected err)) /\
  (forall rows catalog,
     enumRows w = Answer rows -> columnRows w = Answer catalog ->
     fileText w = Failure err ->
     updateTypes w =
     ([DbQuery "pg_type"; DbQuery "columns"; FsRead], Rejected err)) /\
  ((enumRows w = Failure err \/
    (exists rows, enumRows w = Answer rows /\ columnRows w = Failure err) \/
    (exists rows catalog, enumRows w = Answer rows /\
                          columnRows w = Answer catalog /\
                          fileText w = Failure err)) ->
   existsb isWrite (fst (updateTypes w)) = false /\
   forall text, fileAfter text (fst (updateTypes w)) = text).
Proof.
  assert (H1 : enumRows w = Failure err ->
               updateTypes w = ([DbQuery "pg_type"], Rejected err)).
  { intros E. unfold updateTypes, generate. now rewrite E. }
  assert (H2 : forall rows,
             enumRows w = Answer rows -> columnRows w = Failure err ->
             updateTypes w =
             ([DbQuery "pg_type"; DbQuery "columns"], Rejected err)).
  { intros rows E1 E2. unfold updateTypes, generate. now rewrite E1, E2. }
  assert (H3 : forall rows catalog,
             enumRows w = Answer rows -> columnRows w = Answer catalog ->
             fileText w = Failure err ->
             updateTypes w =
             ([DbQuery "pg_type"; DbQuery "columns"; FsRead], Rejected err)).
  { intros rows catalog E1 E2 E3. unfold updateTypes.
    now rewrite (generate_answered w E1 E2), E3. }
  refine (conj H1 (conj H2 (conj H3 _))).
  intros [E|[(rows & E1 & E2)|(rows & catalog & E1 & E2 & E3)]].
  - rewrite (H1 E). now split.
  - rewrite (H2 rows E1 E2). now split.
  - rewrite (H3 rows catalog E1 E2 E3). now split.
Qed.

Lemma failure_before_write_witness :
  updateTypes catalogDown =
  ([DbQuery "pg_type"], Rejected "connection refused").
Proof.
  exact (proj1 (failure_before_write catalogDown "connection refused")
               eq_refl).
Defined.

(** X13.  Every run ends in one of two ways.  When [updateTypes]
    succeeds, the connection is destroyed once, as the last event, and
    nothing is logged.  When it fails, the error is logged, the process exits
    with code 1 right after, and the connection is never destroyed. *)
Theorem main_outcomes (w : World) :
  (exists tr,
      updateTypes w = (tr, Fulfilled tt) /\
      main w = (tr ++ [DbDestroy], Fulfilled tt) /\
      ~ In DbDestroy tr) \/
  (exists tr err,
      updateTypes w = (tr, Rejected err) /\
      main w = (tr ++ [ConsoleError err; ProcessExit 1], Exited 1) /\
      ~ In DbDestroy (fst (main w))).
Proof.
  unfold main, updateTypes, generate.
  destruct (enumRows w) as [rows|e1].
  - destruct (columnRows w) as [catalog|e2].
    + destruct (fileText w) as [text|e3].
      * cbv beta iota zeta delta [bind await ret writeFileSync emit].
        destruct (writeFile w _) as [[]|e4].
        -- left. eexists. refine (conj eq_refl (conj eq_refl _)).
           cbn. intuition discriminate.
        -- right. eexists _, _. refine (conj eq_refl (conj eq_refl _)).
           cbn. intuition discriminate.
      * right. eexists _, _. refine (conj eq_refl (conj eq_refl _)).
        cbn. intuition discriminate.
    + right. eexists _, _. refine (conj eq_refl (conj eq_refl _)).
      cbn. intuition discriminate.
  - right. eexists _, _. refine (conj eq_refl (conj eq_refl _)).
    cbn. intuition discriminate.
Qed.

Lemma fileAfter_write (text source : string) (tr : list Event) :
  fileAfter text (tr ++ [FsWrite source]) = source.
Proof. unfold fileAfter. now rewrite fold_left_app. Qed.

(** X14.  A second run over an unchanged catalog leaves the target file
    as the first run left it, when the generated text holds no dollar sign
    and the file can be read and written: the second run writes the very text
    it has read. *)
Theorem second_run_same_file (w : World)
        (rows : list EnumRow) (catalog : list CatalogColumn) (text : string) :
  enumRows w = Answer rows ->
  columnRows w = Answer catalog ->
  fileText w = Answer text ->
  (forall source, writeFile w source = Answer tt) ->
  plain (generatedText rows (map selectColumn catalog)) = true ->
  let first := fileAfter text (fst (updateTypes w)) in
  first =
    RegExp.replace text
      (replacement (generateLines rows (map selectColumn catalog))) /\
  fileText (rerun w) = Answer first /\
  updateTypes (rerun w) =
    ([DbQuery "pg_type"; DbQuery "columns"; FsRead; FsWrite first],
     Fulfilled tt) /\
  fileAfter first (fst (updateTypes (rerun w))) = first.
Proof.
  intros Hrows Hcat Htext Hwrite Hplain first.
  set (lines := generateLines rows (map selectColumn catalog)) in *.
  assert (Hfirst : first = RegExp.replace text (replacement lines)).
  { unfold first.
    rewrite (updateTypes_writes w Hrows Hcat Htext (Hwrite _)).
    apply (fileAfter_write text _ [DbQuery "pg_type"; DbQuery "columns"; FsRead]). }
  assert (Hfile : fileText (rerun w) = Answer first).
  { unfold rerun. cbn. now rewrite Htext. }
  assert (Hrun : updateTypes (rerun w) =
                 ([DbQuery "pg_type"; DbQuery "columns"; FsRead; FsWrite first],
                  Fulfilled tt)).
  { rewrite (@updateTypes_writes (rerun w) rows catalog first Hrows Hcat Hfile
               (Hwrite _)).
    fold lines. rewrite Hfirst at 1 2. now rewrite (replace_twice text lines Hplain). }
  refine (conj Hfirst (conj Hfile (conj Hrun _))).
  rewrite Hrun.
  apply (fileAfter_write first _ [DbQuery "pg_type"; DbQuery "columns"; FsRead]).
Qed.

Lemma second_run_same_file_witness :
  fileAfter
    (fileAfter textWithAnchor (fst (updateTypes (sampleWorld textWithAnchor))))
    (fst (updateTypes (rerun (sampleWorld textWithAnchor))))
  = fileAfter textWithAnchor (fst (updateTypes (sampleWorld textWithAnchor))).
Proof.
  exact (proj2 (proj2 (proj2
    (@second_run_same_file (sampleWorld textWithAnchor)
       sampleEnumRows sampleCatalog textWithAnchor
       eq_refl eq_refl eq_refl (fun _ => eq_refl) eq_refl)))).
Defined.
